(** * microcms-schema-adapter: the converter of [src/converters/to-json-schema.ts]

    A shallow embedding of the microCMS-schema to JSON-Schema converter, and
    the properties of it that the specification states.

    - JSON Schema nodes are JavaScript objects; they are embedded as JSON
      values whose objects list their own properties in the order in which
      JavaScript enumerates them.
    - The reusable-definition pool is a JavaScript [Map]: a [gmap].
    - The resolution path is a JavaScript [Set] object that is passed by
      reference; the embedding keeps those objects in a store, so that a
      callee that wrote to its caller's set would be visible.
    - The recursion of [resolveCustomField] through the pool is not
      structural; it is embedded with a recursion budget, and the budget
      that always suffices is proved below. *)

From stdpp Require Import gmap strings list sorting.

#[local] Set Warnings "-clear-no-such-hyp".

Open Scope string_scope.
Open Scope list_scope.

(** ** JSON values and JavaScript objects *)

(** JavaScript numbers are only copied by the converter ([numberMin],
    [numberMax]), never computed with: their carrier is immaterial. *)
Definition number := Z.

#[warnings="-register-all"]
Inductive JSON : Type :=
  | JBool (b : bool)
  | JNum (n : number)
  | JStr (s : string)
  | JArr (items : list JSON)
  | JObj (props : list (string * JSON)).

(** The own properties of an object, in the order in which JavaScript
    enumerates them: the keys that are array indices first, in ascending
    numeric order, then the other keys in the order of their creation. The
    prototype of an object is no part of the value. *)
Abbreviation Obj := (list (string * JSON)).

(** [o.hasOwnProperty(k) ? o[k] : undefined], reading an own property. *)
Fixpoint getProp {A} (k : string) (o : list (string * A)) : option A :=
  match o with
  | [] => None
  | (k', v') :: rest => if decide (k = k') then Some v' else getProp k rest
  end.

(** The value of a decimal digit, and of a string of decimal digits. *)
Definition digitValue (c : Ascii.ascii) : option N :=
  let n := Ascii.N_of_ascii c in
  if ((48 <=? n) && (n <=? 57))%N then Some (n - 48)%N else None.

Fixpoint digitsValue (s : string) (acc : N) : option N :=
  match s with
  | EmptyString => Some acc
  | String c rest =>
      match digitValue c with
      | Some d => digitsValue rest (acc * 10 + d)%N
      | None => None
      end
  end.

(** A key is an array index when it is the decimal numeral, without
    leading zeros, of a number below [2^32 - 1]. *)
Definition arrayIndex (k : string) : option N :=
  match k with
  | EmptyString => None
  | String c rest =>
      if decide (Ascii.N_of_ascii c = 48%N) then
        if decide (rest = EmptyString) then Some 0%N else None
      else
        match digitsValue k 0 with
        | Some n => if (n <? 4294967295)%N then Some n else None
        | None => None
        end
  end.

(** A data property under a key that is no array index: an existing key
    keeps its place and takes the new value, a new key is created after
    the existing ones. *)
Fixpoint putNamed {A} (k : string) (v : A) (o : list (string * A)) : list (string * A) :=
  match o with
  | [] => [(k, v)]
  | (k', v') :: rest =>
      if decide (k = k') then (k, v) :: rest else (k', v') :: putNamed k v rest
  end.

(** A data property under the array index [n]: an existing key takes the
    new value, a new key is created before the first array index above
    [n], and before the keys that are no array indices. *)
Fixpoint putIndexed {A} (n : N) (k : string) (v : A) (o : list (string * A))
  : list (string * A) :=
  match o with
  | [] => [(k, v)]
  | (k', v') :: rest =>
      if decide (k = k') then (k, v) :: rest
      else match arrayIndex k' with
           | Some n' =>
               if (n <? n')%N then (k, v) :: (k', v') :: rest
               else (k', v') :: putIndexed n k v rest
           | None => (k, v) :: (k', v') :: rest
           end
  end.

(** Creating or updating the own data property [k] of [o]. *)
Definition defineProp {A} (k : string) (v : A) (o : list (string * A))
  : list (string * A) :=
  match arrayIndex k with
  | Some n => putIndexed n k v o
  | None => putNamed k v o
  end.

(** [o[k] = v], for an object [o] that an object literal created and that
    was given its properties by assignment. The key [__proto__] is not a
    data property of such an object but an accessor that it inherits: the
    assignment sets the prototype of [o] and leaves its own properties as
    they are. Every other key is a data property. *)
Definition setProp {A} (k : string) (v : A) (o : list (string * A))
  : list (string * A) :=
  if decide (k = "__proto__") then o else defineProp k v o.

Definition keys {A} (o : list (string * A)) : list string := o.*1.

Definition ownProps (v : JSON) : Obj :=
  match v with JObj props => props | _ => [] end.

(** [{ ...target, ...source }] defines the own properties of [source], in
    order, on [target]. *)
Definition spread {A} (target source : list (string * A)) : list (string * A) :=
  foldl (fun o kv => defineProp kv.1 kv.2 o) target source.

(** ** The input: [src/types/microcms-schema.ts] *)

Record MicroCMSSelectItem := {
  id : string;
  value : string;
}.

(** The discriminated union [MicroCMSField]: the attributes every kind
    shares are the fields of the record, the kind with its own attributes is
    [kind]. [unknownKind] is a tag outside the union: the type excludes it,
    and the [default] branch of the source answers it all the same. *)
Inductive MicroCMSFieldKind : Type :=
  | text (isUnique : option bool)
  | textArea
  | richEditorV2
  | select (multipleSelect : bool) (selectItems : list MicroCMSSelectItem)
           (selectInitialValue : option (list MicroCMSSelectItem))
  | numberKind (numberMin numberMax : option number)
  | date (dateFormat : option bool)
  | boolean (booleanInitialValue : option bool)
  | media
  | relation (referencedApiEndpoint : string) (multipleSelect : option bool)
  | relationList (referencedApiEndpoint : string)
  | repeater (customFieldCreatedAtList : list string)
  | custom (customFieldCreatedAt : string)
  | unknownKind (tag : string).

Record MicroCMSField := {
  fieldId : string;
  name : string;
  required : option bool;
  description : option string;
  kind : MicroCMSFieldKind;
}.

(** The string of the [kind] discriminator. *)
Definition kindTag (k : MicroCMSFieldKind) : string :=
  match k with
  | text _ => "text"
  | textArea => "textArea"
  | richEditorV2 => "richEditorV2"
  | select _ _ _ => "select"
  | numberKind _ _ => "number"
  | date _ => "date"
  | boolean _ => "boolean"
  | media => "media"
  | relation _ _ => "relation"
  | relationList _ => "relationList"
  | repeater _ => "repeater"
  | custom _ => "custom"
  | unknownKind tag => tag
  end.

Record MicroCMSCustomFieldDefinition := {
  createdAt : string;
  defFieldId : string;
  defName : string;
  fields : list MicroCMSField;
}.

Record MicroCMSApiSchema := {
  apiFields : list MicroCMSField;
  customFields : option (list MicroCMSCustomFieldDefinition);
}.

Record MicroCMSApiEntry := {
  endpoint : string;
  api : MicroCMSApiSchema;
}.

Record MicroCMSSchemaBundle := {
  version : string;
  pulledAt : string;
  serviceDomain : option string;
  apis : list MicroCMSApiEntry;
}.

Record ToJsonSchemaOptions := {
  title : option string;
  includeExtensions : option bool;
}.

(** JavaScript truthiness of an optional boolean and of a string:
    [undefined], [false] and the empty string are falsy. *)
Definition truthyBool (b : option bool) : bool :=
  match b with Some true => true | _ => false end.

Definition truthyString (s : string) : bool :=
  if decide (s = EmptyString) then false else true.

(** ** Effects: a store of [Set] objects and a recursion budget *)

(** A [Set<string>] object is a reference into the store; the store lists
    the sets in allocation order. *)
Definition SetRef := nat.
Abbreviation Store := (list (gset string)).

Inductive Outcome (A : Type) : Type :=
  | Done (a : A)
  | OutOfFuel.
Arguments Done {A} a.
Arguments OutOfFuel {A}.

Definition M (A : Type) : Type := Store -> Outcome (A * Store).

Definition ret {A} (a : A) : M A := fun h => Done (a, h).

Definition bind {A B} (m : M A) (k : A -> M B) : M B :=
  fun h => match m h with
           | Done (a, h') => k a h'
           | OutOfFuel => OutOfFuel
           end.

Definition outOfFuel {A} : M A := fun _ => OutOfFuel.

Notation "'let*' x ':=' m 'in' k" := (bind m (fun x => k))
  (at level 10, x pattern, m at level 100, k at level 200).

(** [new Set()] and [new Set(source)]: a fresh object holding a copy. *)
Definition newSet (source : option SetRef) : M SetRef :=
  fun h =>
    let contents := match source with
                    | Some r => default ∅ (h !! r)
                    | None => ∅
                    end in
    Done (length h, h ++ [contents]).

(** [s.has(x)] *)
Definition setHas (s : SetRef) (x : string) : M bool :=
  fun h => Done (bool_decide (x ∈ default ∅ (h !! s)), h).

(** [s.add(x)]: updates the object in place. *)
Definition setAdd (s : SetRef) (x : string) : M unit :=
  fun h => Done (tt, alter (fun contents => {[x]} ∪ contents) s h).

(** [for (const x of xs) body], the loop's variables being [s]. *)
Fixpoint forOf {A S} (xs : list A) (body : A -> S -> M S) (s : S) : M S :=
  match xs with
  | [] => ret s
  | x :: rest => let* s' := body x s in forOf rest body s'
  end.

(** ** The converter: [src/converters/to-json-schema.ts] *)

Definition buildCustomFieldMap (customFields : option (list MicroCMSCustomFieldDefinition))
  : gmap string MicroCMSCustomFieldDefinition :=
  match customFields with
  | None => ∅
  | Some customFields =>
      foldl (fun map def => <[createdAt def := def]> map) ∅ customFields
  end.

Section Converters.

(** The recursive call of [resolveCustomField], at the budget that is
    left. *)
Variable resolveCustomField :
  string -> gmap string MicroCMSCustomFieldDefinition -> SetRef ->
  option ToJsonSchemaOptions -> M (option JSON).

Definition convertRepeater (createdAtList : list string)
    (customFieldMap : gmap string MicroCMSCustomFieldDefinition)
    (visited : SetRef) (options : option ToJsonSchemaOptions) : M JSON :=
  let* schemas :=
    forOf createdAtList (fun createdAt schemas =>
      let* resolved := resolveCustomField createdAt customFieldMap visited options in
      ret (match resolved with
           | Some resolved => schemas ++ [resolved]
           | None => schemas
           end)) [] in
  if (length schemas =? 0)%nat then
    ret (JObj [("type", JStr "array")])
  else if (length schemas =? 1)%nat then
    ret (JObj [("type", JStr "array");
               ("items", default (JObj []) (schemas !! 0))])
  else
    ret (JObj [("type", JStr "array");
               ("items", JObj [("oneOf", JArr schemas)])]).

Definition convertCustom (createdAt : string)
    (customFieldMap : gmap string MicroCMSCustomFieldDefinition)
    (visited : SetRef) (options : option ToJsonSchemaOptions) : M JSON :=
  let* resolved := resolveCustomField createdAt customFieldMap visited options in
  ret (match resolved with
       | Some resolved => resolved
       | None => JObj [("type", JStr "object")]
       end).

Definition convertFieldByKind (field : MicroCMSField)
    (customFieldMap : gmap string MicroCMSCustomFieldDefinition)
    (visited : SetRef) (options : option ToJsonSchemaOptions) : M JSON :=
  match kind field with
  | text _ => ret (JObj [("type", JStr "string")])
  | textArea => ret (JObj [("type", JStr "string")])
  | richEditorV2 =>
      ret (JObj [("type", JStr "string"); ("contentMediaType", JStr "text/html")])
  | select multipleSelect selectItems _ =>
      let values := JArr (map (fun item => JStr (value item)) selectItems) in
      if multipleSelect then
        ret (JObj [("type", JStr "array");
                   ("items", JObj [("type", JStr "string"); ("enum", values)])])
      else
        ret (JObj [("type", JStr "string"); ("enum", values)])
  | numberKind numberMin numberMax =>
      let schema := [("type", JStr "number")] in
      let schema := match numberMin with
                    | Some numberMin => setProp "minimum" (JNum numberMin) schema
                    | None => schema
                    end in
      let schema := match numberMax with
                    | Some numberMax => setProp "maximum" (JNum numberMax) schema
                    | None => schema
                    end in
      ret (JObj schema)
  | date _ => ret (JObj [("type", JStr "string"); ("format", JStr "date-time")])
  | boolean booleanInitialValue =>
      let schema := [("type", JStr "boolean")] in
      let schema := match booleanInitialValue with
                    | Some initial => setProp "default" (JBool initial) schema
                    | None => schema
                    end in
      ret (JObj schema)
  | media =>
      ret (JObj [("type", JStr "object");
                 ("properties",
                  JObj [("url", JObj [("type", JStr "string"); ("format", JStr "uri")]);
                        ("height", JObj [("type", JStr "number")]);
                        ("width", JObj [("type", JStr "number")])]);
                 ("required", JArr [JStr "url"])])
  | relation _ _ =>
      ret (JObj [("type", JStr "object");
                 ("properties", JObj [("id", JObj [("type", JStr "string")])]);
                 ("required", JArr [JStr "id"])])
  | relationList _ =>
      ret (JObj [("type", JStr "array");
                 ("items",
                  JObj [("type", JStr "object");
                        ("properties", JObj [("id", JObj [("type", JStr "string")])]);
                        ("required", JArr [JStr "id"])])])
  | repeater customFieldCreatedAtList =>
      convertRepeater customFieldCreatedAtList customFieldMap visited options
  | custom customFieldCreatedAt =>
      convertCustom customFieldCreatedAt customFieldMap visited options
  | unknownKind _ => ret (JObj [])
  end.

Definition convertField (field : MicroCMSField)
    (customFieldMap : gmap string MicroCMSCustomFieldDefinition)
    (visited : SetRef) (options : option ToJsonSchemaOptions) : M JSON :=
  let* base := convertFieldByKind field customFieldMap visited options in
  if truthyBool (options ≫= includeExtensions) then
    let ext := [("x-microcms-field-id", JStr (fieldId field));
                ("x-microcms-field-name", JStr (name field));
                ("x-microcms-kind", JStr (kindTag (kind field)))] in
    ret (JObj (spread (spread [] (ownProps base)) ext))
  else
    ret base.

End Converters.

(** [resolveCustomField], with the number of nested definitions it may still
    enter. The cycle test and the lookup come first, as in the source: they
    need no budget. *)
Fixpoint resolveCustomField (fuel : nat) (createdAt : string)
    (customFieldMap : gmap string MicroCMSCustomFieldDefinition)
    (visited : SetRef) (options : option ToJsonSchemaOptions)
    {struct fuel} : M (option JSON) :=
  let* seen := setHas visited createdAt in
  if (seen : bool) then
    ret (Some (JObj [("type", JStr "object")]))
  else
    match customFieldMap !! createdAt with
    | None => ret None
    | Some def =>
        match fuel with
        | 0 => outOfFuel
        | S fuel' =>
            let* nextVisited := newSet (Some visited) in
            let* _ := setAdd nextVisited createdAt in
            let* acc :=
              forOf (fields def) (fun field acc =>
                let* converted :=
                  convertField (resolveCustomField fuel') field customFieldMap
                               nextVisited options in
                ret (setProp (fieldId field) converted acc.1,
                     if truthyBool (required field)
                     then acc.2 ++ [fieldId field] else acc.2))
                ([], []) in
            let properties : Obj := acc.1 in
            let required : list string := acc.2 in
            let schema := [("type", JStr "object"); ("properties", JObj properties)] in
            let schema := if (0 <? length required)%nat
                          then setProp "required" (JArr (JStr <$> required)) schema
                          else schema in
            ret (Some (JObj schema))
        end
    end.

Definition toJsonSchema (fuel : nat) (schema : MicroCMSApiSchema)
    (options : option ToJsonSchemaOptions) : M JSON :=
  let customFieldMap := buildCustomFieldMap (customFields schema) in
  let* acc :=
    forOf (apiFields schema) (fun field acc =>
      let* visited := newSet None in
      let* converted :=
        convertField (resolveCustomField fuel) field customFieldMap visited options in
      ret (setProp (fieldId field) converted acc.1,
           if truthyBool (required field)
           then acc.2 ++ [fieldId field] else acc.2))
      ([], []) in
  let properties : Obj := acc.1 in
  let required : list string := acc.2 in
  let result := [("$schema", JStr "http://json-schema.org/draft-07/schema#");
                 ("type", JStr "object");
                 ("properties", JObj properties)] in
  let result := match options ≫= title with
                | Some title =>
                    if truthyString title
                    then setProp "title" (JStr title) result else result
                | None => result
                end in
  let result := if (0 <? length required)%nat
                then setProp "required" (JArr (JStr <$> required)) result
                else result in
  ret (JObj result).

Definition bundleToJsonSchema (fuel : nat) (bundle : MicroCMSSchemaBundle) : M Obj :=
  forOf (apis bundle) (fun entry result =>
    let* converted :=
      toJsonSchema fuel (api entry)
        (Some {| title := Some (endpoint entry); includeExtensions := None |}) in
    ret (setProp (endpoint entry) converted result)) [].

(** ** Notions the properties are stated with *)

(** The object after the assignments [o[k] = v] of [kvs], in order. *)
Definition assignAll {A} (o kvs : list (string * A)) : list (string * A) :=
  foldl (fun o kv => setProp kv.1 kv.2 o) o kvs.

(** The keys of an object after an assignment, from its keys before. *)
Fixpoint addNamed (ks : list string) (k : string) : list string :=
  match ks with
  | [] => [k]
  | k' :: rest => if decide (k = k') then ks else k' :: addNamed rest k
  end.

Fixpoint addIndexed (n : N) (ks : list string) (k : string) : list string :=
  match ks with
  | [] => [k]
  | k' :: rest =>
      if decide (k = k') then ks
      else match arrayIndex k' with
           | Some n' => if (n <? n')%N then k :: ks else k' :: addIndexed n rest k
           | None => k :: ks
           end
  end.

Definition addKey (ks : list string) (k : string) : list string :=
  if decide (k = "__proto__") then ks
  else match arrayIndex k with
       | Some n => addIndexed n ks k
       | None => addNamed ks k
       end.

(** The elements of a list in the order in which they first occur. *)
Definition firstOccurrences (l : list string) : list string :=
  foldl (fun seen k => if decide (k ∈ seen) then seen else seen ++ [k]) [] l.

(** A key that is a data property created last: no array index, and not
    [__proto__]. *)
Definition plainName (k : string) : Prop :=
  arrayIndex k = None /\ k <> "__proto__".

(** The order of two array indices. *)
Definition indexNotAfter (a b : string) : Prop :=
  match arrayIndex a, arrayIndex b with
  | Some m, Some n => (m <= n)%N
  | _, _ => False
  end.

(** [ownKeyOrder ids ks]: [ks] are the keys of an object to whose
    properties the identifiers [ids] were assigned in order. No key occurs
    twice. The array indices among the identifiers come first, in
    ascending order; the plain names follow in the order in which they
    first occur; [__proto__] is no key. *)
Definition ownKeyOrder (ids ks : list string) : Prop :=
  exists indexed named,
    ks = indexed ++ named /\
    NoDup indexed /\
    StronglySorted indexNotAfter indexed /\
    (forall k, k ∈ indexed <-> k ∈ ids /\ is_Some (arrayIndex k)) /\
    named = firstOccurrences (filter plainName ids).

(** The three shapes of a repeater's schema, by the schemas that resolved. *)
Definition repeaterSchema (schemas : list JSON) : JSON :=
  match schemas with
  | [] => JObj [("type", JStr "array")]
  | [only] => JObj [("type", JStr "array"); ("items", only)]
  | _ => JObj [("type", JStr "array"); ("items", JObj [("oneOf", JArr schemas)])]
  end.

(** What [convertField] adds to the schema of the kind. *)
Definition withExtensions (options : option ToJsonSchemaOptions)
    (field : MicroCMSField) (base : JSON) : JSON :=
  if truthyBool (options ≫= includeExtensions) then
    JObj (spread (spread [] (ownProps base))
            [("x-microcms-field-id", JStr (fieldId field));
             ("x-microcms-field-name", JStr (name field));
             ("x-microcms-kind", JStr (kindTag (kind field)))])
  else base.

(** One turn of the loop that assembles sibling fields, on the loop's two
    variables [properties] and [required]. *)
Definition assignField (acc : Obj * list string) (fs : MicroCMSField * JSON)
  : Obj * list string :=
  (setProp (fieldId fs.1) fs.2 acc.1,
   if truthyBool (required fs.1) then acc.2 ++ [fieldId fs.1] else acc.2).

(** The identifiers of the fields that set the required flag, in order. *)
Definition requiredIds (fs : list MicroCMSField) : list string :=
  fieldId <$> filter (fun f => required f = Some true) fs.

(** [schema.required = required], when the list is not empty. *)
Definition withRequired (required : list string) (schema : Obj) : Obj :=
  if (0 <? length required)%nat
  then setProp "required" (JArr (JStr <$> required)) schema
  else schema.

(** The object that [resolveCustomField] builds from the loop's variables. *)
Definition objectSchema (acc : Obj * list string) : JSON :=
  JObj (withRequired acc.2 [("type", JStr "object"); ("properties", JObj acc.1)]).

(** The envelope that [toJsonSchema] builds from the loop's variables. *)
Definition envelope (options : option ToJsonSchemaOptions) (acc : Obj * list string) : JSON :=
  let result := [("$schema", JStr "http://json-schema.org/draft-07/schema#");
                 ("type", JStr "object");
                 ("properties", JObj acc.1)] in
  let result := match options ≫= title with
                | Some title =>
                    if truthyString title
                    then setProp "title" (JStr title) result else result
                | None => result
                end in
  JObj (withRequired acc.2 result).

(** [yields pool V m a]: in every store, handed a Set object that holds [V],
    [m] returns [a]; the Set objects that existed keep their contents, and
    those [m] created hold identifiers of [V] and of the pool only. *)
Definition yields {A} (pool : gmap string MicroCMSCustomFieldDefinition)
    (V : gset string) (m : SetRef -> M A) (a : A) : Prop :=
  forall (h : Store) (visited : SetRef),
    h !! visited = Some V ->
    exists ext : Store,
      m visited h = Done (a, h ++ ext) /\
      Forall (fun path => path ⊆ V ∪ dom pool) ext.

(** The identifiers of the pool that the path [V] has not entered. *)
Definition unvisited (pool : gmap string MicroCMSCustomFieldDefinition)
    (V : gset string) : nat :=
  size (dom pool ∖ V).

(** What a run returns, without the store it leaves. *)
Definition returned {A} (o : Outcome (A * Store)) : Outcome A :=
  match o with
  | Done (a, _) => Done a
  | OutOfFuel => OutOfFuel
  end.

(** ** Sample inputs *)

Definition sampleField (fieldId : string) (required : option bool)
    (kind : MicroCMSFieldKind) : MicroCMSField :=
  {| fieldId := fieldId; name := fieldId; required := required;
     description := None; kind := kind |}.

(** The definition of the repository's test of circular references: its one
    field refers to the definition itself. *)
Definition cfA : MicroCMSCustomFieldDefinition :=
  {| createdAt := "cf-a"; defFieldId := "node"; defName := "Node";
     fields := [sampleField "child" None (custom "cf-a")] |}.

(** Two definitions that refer to each other, and a repeater over both. *)
Definition cfB : MicroCMSCustomFieldDefinition :=
  {| createdAt := "cf-b"; defFieldId := "b"; defName := "B";
     fields := [sampleField "label" (Some true) (text None);
                sampleField "next" None (custom "cf-c")] |}.

Definition cfC : MicroCMSCustomFieldDefinition :=
  {| createdAt := "cf-c"; defFieldId := "c"; defName := "C";
     fields := [sampleField "back" (Some true) (repeater ["cf-b"; "cf-c"; "cf-x"])] |}.

Definition mutualSchema : MicroCMSApiSchema :=
  {| apiFields := [sampleField "first" (Some true) (custom "cf-b");
                   sampleField "blocks" None (repeater ["cf-b"; "cf-c"])];
     customFields := Some [cfB; cfC] |}.

Definition circularSchema : MicroCMSApiSchema :=
  {| apiFields := [sampleField "node" None (custom "cf-a")];
     customFields := Some [cfA] |}.

Definition emptySchema : MicroCMSApiSchema :=
  {| apiFields := []; customFields := None |}.

(** A definition with two fields under one identifier. *)
Definition cfDup : MicroCMSCustomFieldDefinition :=
  {| createdAt := "cf-dup"; defFieldId := "dup"; defName := "Dup";
     fields := [sampleField "a" None (text None);
                sampleField "a" None (numberKind None None)] |}.

(** Two definitions under one identifier, and a schema whose pool lists
    both. *)
Definition cfOld : MicroCMSCustomFieldDefinition :=
  {| createdAt := "cf-v"; defFieldId := "old"; defName := "Old";
     fields := [sampleField "legacy" None (date None)] |}.

Definition cfNew : MicroCMSCustomFieldDefinition :=
  {| createdAt := "cf-v"; defFieldId := "new"; defName := "New";
     fields := [sampleField "fresh" (Some true) (boolean None)] |}.

(** A bundle that names the endpoint [posts] twice. *)
Definition sampleBundle : MicroCMSSchemaBundle :=
  {| version := "0.x"; pulledAt := "2025-01-01T00:00:00.000Z";
     serviceDomain := Some "test";
     apis := [ {| endpoint := "posts"; api := circularSchema |};
               {| endpoint := "tags"; api := emptySchema |};
               {| endpoint := "posts"; api := mutualSchema |} ] |}.

(** A definition whose two fields refer to one other definition. *)
Definition cfPair : MicroCMSCustomFieldDefinition :=
  {| createdAt := "cf-pair"; defFieldId := "pair"; defName := "Pair";
     fields := [sampleField "left" None (custom "cf-a");
                sampleField "right" (Some true) (custom "cf-a")] |}.

(** ** Notions the further properties are stated with *)

(** The kinds whose schema refers to reusable definitions. *)
Definition isComposite (k : MicroCMSFieldKind) : bool :=
  match k with
  | repeater _ | custom _ => true
  | _ => false
  end.

(** [post m Q]: in whatever store [m] runs, what it returns satisfies
    [Q]. *)
Definition post {A} (m : M A) (Q : A -> Prop) : Prop :=
  forall (h : Store) a (h' : Store), m h = Done (a, h') -> Q a.

(** The keys that the schema of a kind can have. *)
Definition schemaKeys : list string :=
  ["type"; "contentMediaType"; "enum"; "items"; "minimum"; "maximum";
   "format"; "default"; "properties"; "required"].

(** The three provenance properties of the extension option. *)
Definition provenance (field : MicroCMSField) : Obj :=
  [("x-microcms-field-id", JStr (fieldId field));
   ("x-microcms-field-name", JStr (name field));
   ("x-microcms-kind", JStr (kindTag (kind field)))].

(** The schema of a kind is an object, of distinct keys among
    [schemaKeys]. *)
Definition kindSchema (v : JSON) : Prop :=
  exists o, v = JObj o /\ NoDup (keys o) /\ Forall (fun k => k ∈ schemaKeys) (keys o).

(** What a resolution answers: nothing, or the schema of a kind. *)
Definition resolvedSchema (r : option JSON) : Prop :=
  forall s, r = Some s -> kindSchema s.

(** A definition whose field identifiers are a name and two array
    indices. *)
Definition cfNum : MicroCMSCustomFieldDefinition :=
  {| createdAt := "cf-num"; defFieldId := "num"; defName := "Num";
     fields := [sampleField "z" None (text None);
                sampleField "10" None (date None);
                sampleField "2" None (boolean None)] |}.

(** A definition with a required field under the identifier [__proto__]. *)
Definition cfProto : MicroCMSCustomFieldDefinition :=
  {| createdAt := "cf-proto"; defFieldId := "proto"; defName := "Proto";
     fields := [sampleField "__proto__" (Some true) (text None);
                sampleField "a" None (date None)] |}.

(** A bundle that names the endpoint [__proto__] twice. *)
Definition protoBundle : MicroCMSSchemaBundle :=
  {| version := "0.x"; pulledAt := "2025-01-01T00:00:00.000Z";
     serviceDomain := None;
     apis := [ {| endpoint := "__proto__"; api := circularSchema |};
               {| endpoint := "__proto__"; api := emptySchema |} ] |}.

(** ** Objects: what a sequence of assignments leaves *)

Ltac decide_it := apply (bool_decide_unpack _); vm_compute; exact I.

Lemma arrayIndex_proto : arrayIndex "__proto__" = None.
Proof. reflexivity. Qed.

Section Objects.
Context {A : Type}.
Implicit Types (o : list (string * A)) (k : string) (v : A).

Lemma getProp_putNamed k k' v o :
  getProp k' (putNamed k v o) = if decide (k' = k) then Some v else getProp k' o.
Proof.
  induction o as [|[k0 v0] o IH]; cbn [putNamed getProp].
  - repeat case_decide; congruence.
  - repeat (case_decide; cbn [getProp]; subst); try congruence.
Qed.

Lemma getProp_putIndexed n k k' v o :
  getProp k' (putIndexed n k v o) = if decide (k' = k) then Some v else getProp k' o.
Proof.
  induction o as [|[k0 v0] o IH]; cbn [putIndexed getProp].
  - repeat case_decide; congruence.
  - destruct (decide (k = k0)) as [->|Hne]; cbn [getProp].
    + repeat case_decide; congruence.
    + destruct (arrayIndex k0) as [n'|]; [destruct (n <? n')%N|]; cbn [getProp];
        rewrite ?IH; repeat case_decide; congruence.
Qed.

Lemma getProp_defineProp k k' v o :
  getProp k' (defineProp k v o) = if decide (k' = k) then Some v else getProp k' o.
Proof.
  unfold defineProp. destruct (arrayIndex k).
  - apply getProp_putIndexed.
  - apply getProp_putNamed.
Qed.

(** Reading after an assignment. *)
Lemma getProp_setProp k k' v o :
  k <> "__proto__" ->
  getProp k' (setProp k v o) = if decide (k' = k) then Some v else getProp k' o.
Proof.
  intros Hk. unfold setProp. rewrite decide_False by done. apply getProp_defineProp.
Qed.

Lemma getProp_setProp_ne k k' v o :
  k' <> k -> getProp k' (setProp k v o) = getProp k' o.
Proof.
  intros Hne. unfold setProp. case_decide; [done|].
  rewrite getProp_defineProp. by rewrite decide_False.
Qed.

Lemma getProp_None k o : getProp k o = None <-> k ∉ keys o.
Proof.
  unfold keys. induction o as [|[k0 v0] o IH]; simpl.
  - split; [intros _; apply not_elem_of_nil | done].
  - rewrite not_elem_of_cons. case_decide; subst.
    + split; [done | intros [? _]; done].
    + rewrite IH. tauto.
Qed.

Lemma getProp_is_Some k o : is_Some (getProp k o) <-> k ∈ keys o.
Proof.
  rewrite <- not_eq_None_Some, getProp_None.
  destruct (decide (k ∈ keys o)); tauto.
Qed.

(** The keys after an assignment depend on the keys before only. *)
Lemma keys_putNamed k v o : keys (putNamed k v o) = addNamed (keys o) k.
Proof.
  unfold keys. induction o as [|[k0 v0] o IH]; [done|].
  cbn [putNamed]. rewrite fmap_cons. cbn [fst addNamed].
  destruct (decide (k = k0)) as [->|Hne]; [done|]. by rewrite fmap_cons, IH.
Qed.

Lemma keys_putIndexed n k v o : keys (putIndexed n k v o) = addIndexed n (keys o) k.
Proof.
  unfold keys. induction o as [|[k0 v0] o IH]; [done|].
  cbn [putIndexed]. rewrite fmap_cons. cbn [fst addIndexed].
  destruct (decide (k = k0)) as [->|Hne]; [done|].
  destruct (arrayIndex k0) as [n'|]; [destruct (n <? n')%N|]; [done| |done].
  by rewrite fmap_cons, IH.
Qed.

Lemma keys_setProp k v o : keys (setProp k v o) = addKey (keys o) k.
Proof.
  unfold setProp, addKey, defineProp. case_decide; [done|].
  destruct (arrayIndex k); [apply keys_putIndexed | apply keys_putNamed].
Qed.

Lemma putNamed_fresh k v o : k ∉ keys o -> putNamed k v o = o ++ [(k, v)].
Proof.
  unfold keys. induction o as [|[k0 v0] o IH]; [done|].
  rewrite fmap_cons, not_elem_of_cons. cbn [fst putNamed]. intros [Hne Hni].
  rewrite decide_False by done. by rewrite IH.
Qed.

Lemma defineProp_fresh k v o :
  arrayIndex k = None -> k ∉ keys o -> defineProp k v o = o ++ [(k, v)].
Proof. intros Hk Hfresh. unfold defineProp. rewrite Hk. by apply putNamed_fresh. Qed.

(** Assignments, one after the other. *)
Lemma assignAll_app o l1 l2 : assignAll o (l1 ++ l2) = assignAll (assignAll o l1) l2.
Proof. unfold assignAll. apply foldl_app. Qed.

Lemma assignAll_cons o kv l : assignAll o (kv :: l) = assignAll (setProp kv.1 kv.2 o) l.
Proof. done. Qed.

Lemma getProp_assignAll_notin k o l :
  k ∉ l.*1 -> getProp k (assignAll o l) = getProp k o.
Proof.
  revert o. induction l as [|[k0 v0] l IH]; intros o; [done|].
  rewrite fmap_cons, not_elem_of_cons. cbn [fst]. intros [Hne Hni].
  rewrite assignAll_cons, IH by done. cbn [fst snd].
  by apply getProp_setProp_ne.
Qed.

(** The last assignment to a key decides its value. *)
Lemma getProp_assignAll_last k v o l1 l2 :
  k <> "__proto__" -> k ∉ l2.*1 ->
  getProp k (assignAll o (l1 ++ (k, v) :: l2)) = Some v.
Proof.
  intros Hk Hni. rewrite assignAll_app, assignAll_cons, getProp_assignAll_notin by done.
  cbn [fst snd]. rewrite getProp_setProp by done. by rewrite decide_True.
Qed.

Lemma keys_assignAll o l : keys (assignAll o l) = foldl addKey (keys o) l.*1.
Proof.
  revert o. induction l as [|[k0 v0] l IH]; intros o; [done|].
  rewrite assignAll_cons, IH, fmap_cons. cbn [fst snd foldl].
  by rewrite keys_setProp.
Qed.

(** Assignments of the values [vs] to the keys [ks], one by one: the value
    under a key is the one assigned at the key's last position. *)
Lemma getProp_assignAll_lookup o (ks : list string) (vs : list A) i k v :
  k <> "__proto__" ->
  length ks = length vs ->
  ks !! i = Some k -> vs !! i = Some v ->
  (forall j k', i < j -> ks !! j = Some k' -> k' <> k) ->
  getProp k (assignAll o (zip ks vs)) = Some v.
Proof.
  intros Hproto Hlen Hk Hv Hlast.
  assert (zip ks vs !! i = Some (k, v)) as Hkv.
  { apply lookup_zip_with_Some. eauto. }
  rewrite <- (take_drop_middle _ _ _ Hkv).
  apply getProp_assignAll_last; [done|].
  rewrite fmap_drop, fst_zip by lia.
  intros Hin. apply list_elem_of_lookup in Hin as [j Hj].
  rewrite lookup_drop in Hj.
  apply (Hlast (S i + j) k); [lia | done | done].
Qed.

(** New plain names are appended as they come, by assignment and by
    spreading. *)
Lemma assignAll_plain o l :
  Forall plainName l.*1 -> NoDup (keys o ++ l.*1) -> assignAll o l = o ++ l.
Proof.
  unfold keys. revert o. induction l as [|[k0 v0] l IH]; intros o.
  - intros _ _. by rewrite app_nil_r.
  - rewrite fmap_cons. cbn [fst]. intros Hplain Hnd.
    apply Forall_cons in Hplain as [[Hname Hproto] Hplain].
    rewrite assignAll_cons. cbn [fst snd].
    assert (k0 ∉ o.*1) as Hfresh.
    { apply NoDup_app in Hnd as (_ & Hdisj & _).
      intros Hin. apply (Hdisj _ Hin). apply list_elem_of_here. }
    unfold setProp. rewrite decide_False by done.
    rewrite defineProp_fresh by done. rewrite IH.
    + by rewrite <- app_assoc.
    + done.
    + rewrite fmap_app, <- app_assoc. done.
Qed.

Lemma spread_plain o l :
  Forall (fun k => arrayIndex k = None) l.*1 -> NoDup (keys o ++ l.*1) ->
  spread o l = o ++ l.
Proof.
  unfold keys, spread. revert o. induction l as [|[k0 v0] l IH]; intros o.
  - intros _ _. by rewrite app_nil_r.
  - rewrite fmap_cons. cbn [fst foldl]. intros Hplain Hnd.
    apply Forall_cons in Hplain as [Hname Hplain].
    assert (k0 ∉ o.*1) as Hfresh.
    { apply NoDup_app in Hnd as (_ & Hdisj & _).
      intros Hin. apply (Hdisj _ Hin). apply list_elem_of_here. }
    cbn [fst snd]. rewrite defineProp_fresh by done. rewrite IH.
    + by rewrite <- app_assoc.
    + done.
    + rewrite fmap_app, <- app_assoc. done.
Qed.

End Objects.

(** ** The order of the keys *)

Lemma addNamed_spec ks k : addNamed ks k = if decide (k ∈ ks) then ks else ks ++ [k].
Proof.
  induction ks as [|k' ks IH]; cbn [addNamed].
  - by rewrite decide_False by apply not_elem_of_nil.
  - destruct (decide (k = k')) as [->|Hne].
    + by rewrite decide_True by apply list_elem_of_here.
    + rewrite IH. case_decide.
      * by rewrite decide_True by (by apply list_elem_of_further).
      * rewrite decide_False; [done|]. rewrite elem_of_cons. tauto.
Qed.

Lemma firstOccurrences_snoc l k :
  firstOccurrences (l ++ [k])
  = if decide (k ∈ firstOccurrences l)
    then firstOccurrences l else firstOccurrences l ++ [k].
Proof. unfold firstOccurrences. by rewrite foldl_app. Qed.

Lemma firstOccurrences_spec l :
  NoDup (firstOccurrences l) /\ (forall k, k ∈ firstOccurrences l <-> k ∈ l).
Proof.
  induction l as [|k l [Hnd Hin]] using rev_ind.
  - split; [constructor | done].
  - rewrite firstOccurrences_snoc. case_decide as Hk.
    + split; [done|]. intros x. rewrite elem_of_app, list_elem_of_singleton, Hin.
      split; [tauto|]. intros [?| ->]; [done | by apply Hin].
    + split.
      * apply NoDup_app. split_and!; [done| |apply NoDup_singleton].
        intros x Hx Hx'. apply list_elem_of_singleton in Hx'. by subst.
      * intros x. rewrite !elem_of_app, list_elem_of_singleton, Hin. done.
Qed.

Lemma elem_of_firstOccurrences l k : k ∈ firstOccurrences l <-> k ∈ l.
Proof. apply firstOccurrences_spec. Qed.

Lemma firstOccurrences_NoDup l : NoDup l -> firstOccurrences l = l.
Proof.
  induction l as [|k l IH] using rev_ind; [done|].
  intros Hnd. apply NoDup_app in Hnd as (Hl & Hdisj & _).
  rewrite firstOccurrences_snoc, IH by done.
  rewrite decide_False; [done|].
  intros Hin. apply (Hdisj _ Hin). apply list_elem_of_here.
Qed.

(** A new array index among the array indices in ascending order. *)
Lemma addIndexed_sorted n k indexed :
  arrayIndex k = Some n ->
  Forall (fun x => is_Some (arrayIndex x)) indexed ->
  NoDup indexed -> StronglySorted indexNotAfter indexed ->
  NoDup (addIndexed n indexed k) /\
  StronglySorted indexNotAfter (addIndexed n indexed k) /\
  (forall x, x ∈ addIndexed n indexed k <-> x ∈ indexed \/ x = k).
Proof.
  intros Hk Hindices Hnd Hsorted.
  induction Hsorted as [|k' rest Hrest IH Hk']; cbn [addIndexed].
  - split_and!; [apply NoDup_singleton | repeat constructor |].
    intros x. rewrite list_elem_of_singleton, elem_of_nil. tauto.
  - apply Forall_cons in Hindices as [[n' Hn'] Hindices].
    apply NoDup_cons in Hnd as [Hfresh Hnd].
    destruct (decide (k = k')) as [->|Hne].
    + split_and!; [by constructor | by constructor |].
      intros x. rewrite elem_of_cons. split; [tauto|]. intros [?| ->]; tauto.
    + rewrite Hn'. destruct (n <? n')%N eqn:Hlt.
      * apply N.ltb_lt in Hlt.
        assert (Forall (indexNotAfter k) (k' :: rest)) as Hall.
        { constructor.
          - unfold indexNotAfter. rewrite Hk, Hn'. lia.
          - eapply Forall_impl; [exact Hk'|]. intros x. unfold indexNotAfter.
            rewrite Hk, Hn'. destruct (arrayIndex x); [lia | done]. }
        split_and!.
        -- constructor; [|by constructor].
           intros Hin. apply elem_of_cons in Hin as [?|Hin]; [done|].
           eapply Forall_forall in Hk'; [|exact Hin].
           unfold indexNotAfter in Hk'. rewrite Hn', Hk in Hk'. lia.
        -- constructor; [by constructor | exact Hall].
        -- intros x. rewrite !elem_of_cons. tauto.
      * apply N.ltb_ge in Hlt.
        destruct (IH Hindices Hnd) as (IHnd & IHsorted & IHin).
        split_and!.
        -- constructor; [|done]. rewrite IHin. intros [?|?]; [done | by subst].
        -- constructor; [done|]. apply Forall_forall. intros x Hx.
           apply IHin in Hx as [Hx| ->].
           ++ by eapply Forall_forall in Hk'.
           ++ unfold indexNotAfter. rewrite Hn', Hk. lia.
        -- intros x. rewrite !elem_of_cons, IHin. tauto.
Qed.

(** The names that are no array indices stay behind the array indices. *)
Lemma addIndexed_app n k indexed named :
  Forall (fun x => arrayIndex x = None) named -> k ∉ named ->
  addIndexed n (indexed ++ named) k = addIndexed n indexed k ++ named.
Proof.
  intros Hnamed Hfresh. induction indexed as [|k' indexed IH]; cbn [addIndexed app].
  - destruct named as [|x named]; [done|]. cbn [addIndexed].
    apply not_elem_of_cons in Hfresh as [Hne _].
    apply Forall_cons in Hnamed as [Hx _].
    rewrite decide_False by done. by rewrite Hx.
  - case_decide; [done|].
    destruct (arrayIndex k') as [n'|]; [destruct (n <? n')%N|]; [done| |done].
    by rewrite IH.
Qed.

Lemma addNamed_app k indexed named :
  k ∉ indexed -> addNamed (indexed ++ named) k = indexed ++ addNamed named k.
Proof.
  intros Hfresh. induction indexed as [|k' indexed IH]; cbn [addNamed app]; [done|].
  apply not_elem_of_cons in Hfresh as [Hne Hfresh].
  rewrite decide_False by done. by rewrite IH.
Qed.

Lemma filter_plainName_snoc l k :
  filter plainName (l ++ [k])
  = filter plainName l ++ (if decide (plainName k) then [k] else []).
Proof.
  rewrite filter_app. f_equal.
Qed.

(** One more assignment. *)
Lemma ownKeyOrder_step ids ks k :
  ownKeyOrder ids ks -> ownKeyOrder (ids ++ [k]) (addKey ks k).
Proof.
  intros (indexed & named & -> & Hnd & Hsorted & Hindexed & ->).
  assert (Forall (fun x => is_Some (arrayIndex x)) indexed) as Hindices.
  { apply Forall_forall. intros x Hx. by apply Hindexed in Hx as [_ ?]. }
  assert (Forall (fun x => arrayIndex x = None)
            (firstOccurrences (filter plainName ids))) as Hnamed.
  { apply Forall_forall. intros x Hx.
    rewrite elem_of_firstOccurrences in Hx.
    by apply list_elem_of_filter in Hx as [[? _] _]. }
  unfold addKey. destruct (decide (k = "__proto__")) as [->|Hproto].
  - exists indexed, (firstOccurrences (filter plainName ids)).
    split_and!; [done | done | done | |].
    + intros x. rewrite Hindexed, elem_of_app, list_elem_of_singleton.
      split; [tauto|]. intros [[?| ->] Hx]; [done|].
      rewrite arrayIndex_proto in Hx. by destruct Hx.
    + rewrite filter_plainName_snoc, decide_False, app_nil_r; [done|].
      by intros [_ ?].
  - destruct (arrayIndex k) as [n|] eqn:Hk.
    + destruct (addIndexed_sorted n k indexed Hk Hindices Hnd Hsorted)
        as (Hnd' & Hsorted' & Hin').
      exists (addIndexed n indexed k), (firstOccurrences (filter plainName ids)).
      split_and!; [ | done | done | |].
      * apply addIndexed_app; [done|].
        intros Hin. eapply Forall_forall in Hnamed; [|exact Hin]. congruence.
      * intros x. rewrite Hin', Hindexed, elem_of_app, list_elem_of_singleton.
        split; [intros [[? ?]| ->]; [tauto | by rewrite Hk; eauto] | tauto].
      * rewrite filter_plainName_snoc, decide_False, app_nil_r; [done|].
        intros [? _]. congruence.
    + exists indexed, (firstOccurrences (filter plainName (ids ++ [k]))).
      split_and!; [ | done | done | | done].
      * rewrite addNamed_app.
        -- f_equal. rewrite filter_plainName_snoc, decide_True by done.
           by rewrite firstOccurrences_snoc, addNamed_spec.
        -- intros Hin. eapply Forall_forall in Hindices; [|exact Hin].
           rewrite Hk in Hindices. by destruct Hindices.
      * intros x. rewrite Hindexed, elem_of_app, list_elem_of_singleton.
        split; [tauto|]. intros [[?| ->] Hx]; [done|].
        rewrite Hk in Hx. by destruct Hx.
Qed.

(** The keys after the assignments to [ids], from no key. *)
Lemma ownKeyOrder_foldl ids : ownKeyOrder ids (foldl addKey [] ids).
Proof.
  induction ids as [|k ids IH] using rev_ind.
  - exists [], []. split_and!; [done | constructor | constructor | | done].
    intros k. rewrite elem_of_nil. tauto.
  - rewrite foldl_app. cbn [foldl]. by apply ownKeyOrder_step.
Qed.

Lemma ownKeyOrder_elem ids ks k :
  ownKeyOrder ids ks -> k ∈ ks <-> k ∈ ids /\ k <> "__proto__".
Proof.
  intros (indexed & named & -> & _ & _ & Hindexed & ->).
  rewrite elem_of_app, Hindexed, elem_of_firstOccurrences,
    list_elem_of_filter. unfold plainName. split.
  - intros [[Hin Hindex]|[[_ ?] Hin]]; [|done]. split; [done|].
    intros ->. rewrite arrayIndex_proto in Hindex. by destruct Hindex.
  - intros [Hin Hproto]. destruct (arrayIndex k) eqn:Hk; [left | right]; eauto.
Qed.

Lemma ownKeyOrder_NoDup ids ks : ownKeyOrder ids ks -> NoDup ks.
Proof.
  intros (indexed & named & -> & Hnd & _ & Hindexed & ->).
  apply NoDup_app. split_and!; [done| |apply firstOccurrences_spec].
  intros x Hx Hx'. apply Hindexed in Hx as [_ Hindex].
  rewrite elem_of_firstOccurrences in Hx'.
  apply list_elem_of_filter in Hx' as [[Hname _] _].
  rewrite Hname in Hindex. by destruct Hindex.
Qed.

(** Plain names only: the order in which they first occur. *)
Lemma ownKeyOrder_plain ids ks :
  Forall plainName ids -> ownKeyOrder ids ks -> ks = firstOccurrences ids.
Proof.
  intros Hplain (indexed & named & -> & _ & _ & Hindexed & ->).
  assert (indexed = []) as ->.
  { apply elem_of_nil_inv. intros x Hx. apply Hindexed in Hx as [Hin Hindex].
    eapply Forall_forall in Hplain; [|exact Hin]. destruct Hplain as [Hname _].
    rewrite Hname in Hindex. by destruct Hindex. }
  cbn [app]. f_equal. clear Hindexed.
  induction Hplain as [|k ids Hk _ IH]; [done|].
  rewrite filter_cons_True by done. by rewrite IH.
Qed.

(** The record that a loop of assignments builds from no key. *)
Lemma keys_assembled {A} (ks : list string) (vs : list A) :
  length ks = length vs -> ownKeyOrder ks (keys (assignAll [] (zip ks vs))).
Proof.
  intros Hlen. rewrite keys_assignAll. cbn [keys fmap list_fmap].
  rewrite fst_zip by lia. apply ownKeyOrder_foldl.
Qed.

Lemma assembled_plain {A} (ks : list string) (vs : list A) :
  length ks = length vs -> Forall plainName ks -> NoDup ks ->
  assignAll [] (zip ks vs) = zip ks vs.
Proof.
  intros Hlen Hplain Hnd. rewrite assignAll_plain; [done| |].
  - by rewrite fst_zip by lia.
  - cbn [keys fmap list_fmap app]. by rewrite fst_zip by lia.
Qed.

Lemma assembled_lookup {A} (ks : list string) (vs : list A) k :
  length ks = length vs -> k ∈ ks -> k <> "__proto__" ->
  is_Some (getProp k (assignAll [] (zip ks vs))).
Proof.
  intros Hlen Hk Hproto. apply getProp_is_Some.
  by apply (ownKeyOrder_elem ks _ k (keys_assembled ks vs Hlen)).
Qed.

Lemma assembled_proto {A} (ks : list string) (vs : list A) :
  getProp "__proto__" (assignAll [] (zip ks vs)) = None.
Proof.
  generalize (zip ks vs). intros l.
  assert (forall o : list (string * A),
            getProp "__proto__" o = None ->
            getProp "__proto__" (assignAll o l) = None) as Hall.
  { induction l as [|[k v] l IH]; intros o Ho; [done|].
    rewrite assignAll_cons. apply IH. cbn [fst snd].
    destruct (decide (k = "__proto__")) as [->|Hne].
    - unfold setProp. by rewrite decide_True.
    - by rewrite getProp_setProp_ne. }
  by apply Hall.
Qed.

Lemma required_among_properties {A} (ks : list string) (vs : list A) k :
  length ks = length vs -> k ∈ ks ->
  is_Some (getProp k (assignAll [] (zip ks vs))) <-> k <> "__proto__".
Proof.
  intros Hlen Hk. split.
  - intros Hsome ->. rewrite assembled_proto in Hsome. by destruct Hsome.
  - by apply assembled_lookup.
Qed.

(** ** Running the converter against the store *)

Lemma bind_Done {A B} (m : M A) (k : A -> M B) h a h' :
  m h = Done (a, h') -> bind m k h = k a h'.
Proof. intros E. unfold bind. by rewrite E. Qed.

Section Yields.

Variable pool : gmap string MicroCMSCustomFieldDefinition.
Variable options : option ToJsonSchemaOptions.

Lemma yields_functional {A} V (m : SetRef -> M A) a b :
  yields pool V m a -> yields pool V m b -> a = b.
Proof.
  intros Ha Hb.
  destruct (Ha [V] 0 eq_refl) as (e1 & E1 & _).
  destruct (Hb [V] 0 eq_refl) as (e2 & E2 & _).
  congruence.
Qed.

Lemma yields_ret {A} V (a : A) : yields pool V (fun _ => ret a) a.
Proof.
  intros h v Hv. exists []. rewrite app_nil_r. split; [done | constructor].
Qed.

Lemma yields_bind {A B} V (m : SetRef -> M A) (k : A -> SetRef -> M B) a b :
  yields pool V m a -> yields pool V (k a) b ->
  yields pool V (fun v => bind (m v) (fun x => k x v)) b.
Proof.
  intros Hm Hk h v Hv.
  destruct (Hm h v Hv) as (e1 & E1 & F1).
  destruct (Hk (h ++ e1) v (lookup_app_l_Some _ _ _ _ Hv)) as (e2 & E2 & F2).
  exists (e1 ++ e2). rewrite (bind_Done _ _ _ _ _ E1), E2, app_assoc.
  split; [done | by apply Forall_app].
Qed.

Section Kinds.

Variable resolve :
  string -> gmap string MicroCMSCustomFieldDefinition -> SetRef ->
  option ToJsonSchemaOptions -> M (option JSON).
Variable V : gset string.

Lemma convertCustom_yields c r :
  yields pool V (fun v => resolve c pool v options) r ->
  yields pool V (fun v => convertCustom resolve c pool v options)
    (match r with Some s => s | None => JObj [("type", JStr "object")] end).
Proof.
  intros Hr. unfold convertCustom.
  apply (yields_bind V _ (fun x _ => ret _) r); [done | apply yields_ret].
Qed.

Lemma repeater_loop_yields cs rs :
  Forall2 (fun c r => yields pool V (fun v => resolve c pool v options) r) cs rs ->
  forall schemas,
    yields pool V
      (fun v => forOf cs (fun createdAt schemas =>
         let* resolved := resolve createdAt pool v options in
         ret (match resolved with
              | Some resolved => schemas ++ [resolved]
              | None => schemas
              end)) schemas)
      (schemas ++ omap (fun r => r) rs).
Proof.
  induction 1 as [|c r cs rs Hc _ IH]; intros schemas.
  - cbn [forOf omap]. rewrite app_nil_r. apply yields_ret.
  - cbn [forOf].
    replace (schemas ++ omap (fun r => r) (r :: rs))
      with ((match r with Some s => schemas ++ [s] | None => schemas end)
              ++ omap (fun r => r) rs)
      by (destruct r; cbn [omap]; [rewrite <- app_assoc|]; done).
    apply (yields_bind V _ (fun s v => forOf cs _ s)
             (match r with Some s => schemas ++ [s] | None => schemas end)).
    + apply (yields_bind V _ (fun x _ => ret _) r); [done | apply yields_ret].
    + apply IH.
Qed.

Lemma convertRepeater_yields cs rs :
  Forall2 (fun c r => yields pool V (fun v => resolve c pool v options) r) cs rs ->
  yields pool V (fun v => convertRepeater resolve cs pool v options)
    (repeaterSchema (omap (fun r => r) rs)).
Proof.
  intros Hrs. unfold convertRepeater.
  apply (yields_bind V _ (fun schemas _ => _) (omap (fun r => r) rs)).
  - apply (repeater_loop_yields cs rs Hrs []).
  - destruct (omap (fun r => r) rs) as [|s1 [|s2 rest]]; apply yields_ret.
Qed.

(** Every identifier resolving to something, so does every list. *)
Lemma resolve_all cs :
  (forall c, exists r, yields pool V (fun v => resolve c pool v options) r) ->
  exists rs, Forall2 (fun c r => yields pool V (fun v => resolve c pool v options) r) cs rs.
Proof.
  intros Hall. induction cs as [|c cs [rs IH]].
  - exists []. constructor.
  - destruct (Hall c) as [r Hr]. exists (r :: rs). by constructor.
Qed.

Lemma convertFieldByKind_yields field :
  (forall c, exists r, yields pool V (fun v => resolve c pool v options) r) ->
  exists base, yields pool V (fun v => convertFieldByKind resolve field pool v options) base.
Proof.
  intros Hall. unfold convertFieldByKind.
  destruct (kind field) as [| | |multiple ? ?| | | | | | |cs|c|];
    try (eexists; apply yields_ret).
  - destruct multiple; eexists; apply yields_ret.
  - destruct (resolve_all cs Hall) as [rs Hrs].
    eexists. by apply convertRepeater_yields.
  - destruct (Hall c) as [r Hr].
    eexists. by apply convertCustom_yields.
Qed.

Lemma convertField_yields field base :
  yields pool V (fun v => convertFieldByKind resolve field pool v options) base ->
  yields pool V (fun v => convertField resolve field pool v options)
    (withExtensions options field base).
Proof.
  intros Hbase. unfold convertField, withExtensions.
  apply (yields_bind V _ (fun base _ => _) base); [done|].
  destruct (truthyBool _); apply yields_ret.
Qed.

Lemma convertField_total field :
  (forall c, exists r, yields pool V (fun v => resolve c pool v options) r) ->
  exists s, yields pool V (fun v => convertField resolve field pool v options) s.
Proof.
  intros Hall. destruct (convertFieldByKind_yields field Hall) as [base Hbase].
  eexists. by apply convertField_yields.
Qed.

Lemma convert_all fs :
  (forall c, exists r, yields pool V (fun v => resolve c pool v options) r) ->
  exists ss,
    Forall2 (fun f s => yields pool V (fun v => convertField resolve f pool v options) s) fs ss.
Proof.
  intros Hall. induction fs as [|f fs [ss IH]].
  - exists []. constructor.
  - destruct (convertField_total f Hall) as [s Hs]. exists (s :: ss). by constructor.
Qed.

(** The loop of [resolveCustomField] over the fields of a definition. *)
Lemma assemble_loop_yields fs ss :
  Forall2 (fun f s => yields pool V (fun v => convertField resolve f pool v options) s) fs ss ->
  forall acc,
    yields pool V
      (fun v => forOf fs (fun field acc =>
         let* converted := convertField resolve field pool v options in
         ret (setProp (fieldId field) converted acc.1,
              if truthyBool (required field)
              then acc.2 ++ [fieldId field] else acc.2)) acc)
      (foldl assignField acc (zip fs ss)).
Proof.
  induction 1 as [|f s fs ss Hf _ IH]; intros acc.
  - apply yields_ret.
  - cbn [forOf zip zip_with foldl].
    apply (yields_bind V _ (fun a v => forOf fs _ a) (assignField acc (f, s))).
    + apply (yields_bind V _ (fun x _ => ret _) s); [done | apply yields_ret].
    + apply IH.
Qed.

End Kinds.

End Yields.

Section Resolution.

Variable pool : gmap string MicroCMSCustomFieldDefinition.
Variable options : option ToJsonSchemaOptions.

Lemma unvisited_enter V c :
  c ∉ V -> is_Some (pool !! c) -> unvisited pool ({[c]} ∪ V) < unvisited pool V.
Proof.
  intros Hc Hin. apply elem_of_dom in Hin.
  unfold unvisited. apply subset_size. set_solver.
Qed.

(** A cycle: the answer is immediate, at any budget, and no Set object is
    created. *)
Lemma resolve_cycle fuel c (h : Store) visited V :
  h !! visited = Some V -> c ∈ V ->
  resolveCustomField fuel c pool visited options h
  = Done (Some (JObj [("type", JStr "object")]), h).
Proof.
  intros Hv Hc.
  destruct fuel; cbn [resolveCustomField]; unfold bind, setHas;
    rewrite Hv; cbn [default]; rewrite bool_decide_eq_true_2 by done; done.
Qed.

(** An identifier that the pool does not hold: "unresolved", at any
    budget. *)
Lemma resolve_absent fuel c (h : Store) visited V :
  h !! visited = Some V -> c ∉ V -> pool !! c = None ->
  resolveCustomField fuel c pool visited options h = Done (None, h).
Proof.
  intros Hv Hc Hnone.
  destruct fuel; cbn [resolveCustomField]; unfold bind, setHas;
    rewrite Hv; cbn [default]; rewrite bool_decide_eq_false_2 by done;
    rewrite Hnone; done.
Qed.

(** Entering a definition: a copy of the path is created and extended by
    the identifier, and the fields are converted against the copy. *)
Lemma resolve_enter fuel c def ss (h : Store) visited V :
  h !! visited = Some V -> c ∉ V -> pool !! c = Some def ->
  Forall2 (fun f s =>
    yields pool ({[c]} ∪ V)
      (fun v => convertField (resolveCustomField fuel) f pool v options) s)
    (fields def) ss ->
  exists ext,
    resolveCustomField (S fuel) c pool visited options h
    = Done (Some (objectSchema (foldl assignField ([], []) (zip (fields def) ss))),
            h ++ ({[c]} ∪ V) :: ext) /\
    Forall (fun path => path ⊆ ({[c]} ∪ V) ∪ dom pool) ext.
Proof.
  intros Hv Hc Hdef Hss.
  cbn [resolveCustomField]. unfold bind at 1. unfold setHas at 1.
  rewrite Hv. cbn [default]. rewrite bool_decide_eq_false_2 by done.
  rewrite Hdef. unfold bind at 1. unfold newSet at 1. rewrite Hv. cbn [default].
  unfold bind at 1. unfold setAdd at 1.
  replace (alter (fun contents => {[c]} ∪ contents) (length h) (h ++ [V]))
    with (h ++ [{[c]} ∪ V])
    by (rewrite <- (Nat.add_0_r (length h)) at 1; by rewrite alter_app_r).
  pose proof (assemble_loop_yields pool options (resolveCustomField fuel)
                ({[c]} ∪ V) (fields def) ss Hss ([], [])
                (h ++ [{[c]} ∪ V]) (length h)) as Hloop.
  destruct Hloop as (ext & Eloop & Fext).
  { by apply list_lookup_middle. }
  exists ext. rewrite (bind_Done _ _ _ _ _ Eloop).
  rewrite <- app_assoc. done.
Qed.

(** With a budget of at least the number of unvisited identifiers,
    resolution returns; what it returns depends on the store through the
    contents of the path only. *)
Lemma resolve_total fuel : forall V c,
  unvisited pool V <= fuel ->
  exists r, yields pool V (fun v => resolveCustomField fuel c pool v options) r.
Proof.
  induction fuel as [|fuel IH]; intros V c Hfuel.
  - destruct (decide (c ∈ V)) as [Hc|Hc].
    + eexists. intros h v Hv. exists []. rewrite app_nil_r.
      split; [by eapply resolve_cycle | constructor].
    + destruct (pool !! c) as [def|] eqn:Hdef.
      * pose proof (unvisited_enter V c Hc (mk_is_Some _ _ Hdef)). lia.
      * eexists. intros h v Hv. exists []. rewrite app_nil_r.
        split; [by eapply resolve_absent | constructor].
  - destruct (decide (c ∈ V)) as [Hc|Hc].
    + eexists. intros h v Hv. exists []. rewrite app_nil_r.
      split; [by eapply resolve_cycle | constructor].
    + destruct (pool !! c) as [def|] eqn:Hdef.
      * pose proof (unvisited_enter V c Hc (mk_is_Some _ _ Hdef)) as Hlt.
        destruct (convert_all pool options (resolveCustomField fuel)
                    ({[c]} ∪ V) (fields def)) as [ss Hss].
        { intros c'. apply IH. lia. }
        eexists. intros h v Hv.
        destruct (resolve_enter fuel c def ss h v V Hv Hc Hdef Hss)
          as (ext & E & Fext).
        exists (({[c]} ∪ V) :: ext). split; [exact E|].
        assert (c ∈ dom pool) by (apply elem_of_dom; eauto).
        constructor; [set_solver|].
        eapply Forall_impl; [exact Fext|]. intros path Hp. set_solver.
      * eexists. intros h v Hv. exists []. rewrite app_nil_r.
        split; [by eapply resolve_absent | constructor].
Qed.

Lemma convertField_enough fuel V field :
  unvisited pool V <= fuel ->
  exists s,
    yields pool V (fun v => convertField (resolveCustomField fuel) field pool v options) s.
Proof.
  intros Hfuel. apply convertField_total. intros c. by apply resolve_total.
Qed.

Lemma convert_all_enough fuel V fs :
  unvisited pool V <= fuel ->
  exists ss,
    Forall2 (fun f s =>
      yields pool V (fun v => convertField (resolveCustomField fuel) f pool v options) s)
      fs ss.
Proof.
  intros Hfuel. apply convert_all. intros c. by apply resolve_total.
Qed.

(** The loop of [toJsonSchema]: each field starts from a path of its own,
    which is empty. *)
Lemma toplevel_loop fuel fs ss :
  Forall2 (fun f s =>
    yields pool ∅ (fun v => convertField (resolveCustomField fuel) f pool v options) s)
    fs ss ->
  forall acc (h : Store),
    exists ext,
      forOf fs (fun field acc =>
        let* visited := newSet None in
        let* converted :=
          convertField (resolveCustomField fuel) field pool visited options in
        ret (setProp (fieldId field) converted acc.1,
             if truthyBool (required field)
             then acc.2 ++ [fieldId field] else acc.2)) acc h
      = Done (foldl assignField acc (zip fs ss), h ++ ext) /\
      Forall (fun path => path ⊆ dom pool) ext.
Proof.
  induction 1 as [|f s fs ss Hf _ IH]; intros acc h.
  - exists []. rewrite app_nil_r. split; [done | constructor].
  - cbn [forOf zip zip_with foldl].
    destruct (Hf (h ++ [∅]) (length h)) as (e1 & E1 & F1).
    { by apply list_lookup_middle. }
    destruct (IH (assignField acc (f, s)) ((h ++ [∅]) ++ e1)) as (e2 & E2 & F2).
    exists (∅ :: e1 ++ e2). split.
    + unfold bind at 1. unfold bind at 1. unfold newSet at 1.
      unfold bind at 1. rewrite E1. unfold ret at 1. unfold assignField in E2.
      cbn [fst snd] in E2. rewrite E2. do 2 f_equal.
      rewrite <- !app_assoc. done.
    + constructor; [set_solver|]. apply Forall_app. split; [|done].
      eapply Forall_impl; [exact F1|]. intros path Hp. set_solver.
Qed.

(** Without a definition in the pool there is nothing to enter: resolution
    answers at once, with the cycle's schema or with "unresolved". *)
Lemma resolve_no_definition fuel c (h : Store) visited :
  pool !! c = None ->
  resolveCustomField fuel c pool visited options h
  = Done (Some (JObj [("type", JStr "object")]), h) \/
  resolveCustomField fuel c pool visited options h = Done (None, h).
Proof.
  intros Hnone.
  destruct fuel; cbn [resolveCustomField]; unfold bind, setHas;
    destruct (bool_decide _); rewrite ?Hnone; auto.
Qed.

Lemma unvisited_le_size V : unvisited pool V <= size pool.
Proof.
  unfold unvisited. rewrite <- (size_dom (D := gset string) pool).
  apply subseteq_size. set_solver.
Qed.

(** Entering a definition with a sufficient budget. *)
Lemma resolve_enough_enter fuel c def (h : Store) visited V :
  h !! visited = Some V -> c ∉ V -> pool !! c = Some def ->
  unvisited pool V <= fuel ->
  exists fuel' ss ext,
    fuel = S fuel' /\
    Forall2 (fun f s =>
      yields pool ({[c]} ∪ V)
        (fun v => convertField (resolveCustomField fuel') f pool v options) s)
      (fields def) ss /\
    resolveCustomField fuel c pool visited options h
    = Done (Some (objectSchema (foldl assignField ([], []) (zip (fields def) ss))),
            h ++ ({[c]} ∪ V) :: ext) /\
    Forall (fun path => path ⊆ V ∪ dom pool) ext.
Proof.
  intros Hv Hc Hdef Hfuel.
  pose proof (unvisited_enter V c Hc (mk_is_Some _ _ Hdef)) as Hlt.
  destruct fuel as [|fuel']; [lia|].
  destruct (convert_all_enough fuel' ({[c]} ∪ V) (fields def)) as [ss Hss]; [lia|].
  destruct (resolve_enter fuel' c def ss h visited V Hv Hc Hdef Hss) as (ext & E & Fext).
  exists fuel', ss, ext. split_and!; [done | done | done |].
  assert (c ∈ dom pool) by (apply elem_of_dom; eauto).
  eapply Forall_impl; [exact Fext|]. intros path Hp. set_solver.
Qed.

End Resolution.

(** ** The budget is immaterial once it suffices *)

Section Budget.

Variable pool : gmap string MicroCMSCustomFieldDefinition.
Variable options : option ToJsonSchemaOptions.

(** The conversion of a field consults the resolver through its answers
    only. *)
Lemma convertField_resolver
    (resolve1 resolve2 :
       string -> gmap string MicroCMSCustomFieldDefinition -> SetRef ->
       option ToJsonSchemaOptions -> M (option JSON))
    (V : gset string) field s :
  (forall c, exists r, yields pool V (fun v => resolve1 c pool v options) r) ->
  (forall c r,
     yields pool V (fun v => resolve1 c pool v options) r ->
     yields pool V (fun v => resolve2 c pool v options) r) ->
  yields pool V (fun v => convertField resolve1 field pool v options) s ->
  yields pool V (fun v => convertField resolve2 field pool v options) s.
Proof.
  intros Htotal Htrans Hs.
  assert (exists base,
            yields pool V (fun v => convertFieldByKind resolve1 field pool v options) base /\
            yields pool V (fun v => convertFieldByKind resolve2 field pool v options) base)
    as (base & H1 & H2).
  { unfold convertFieldByKind.
    destruct (kind field) as [| | |multiple ? ?| | | | | | |cs|c|];
      try (eexists; split; apply yields_ret).
    - destruct multiple; eexists; split; apply yields_ret.
    - destruct (resolve_all pool options resolve1 V cs Htotal) as [rs Hrs].
      eexists. split; apply convertRepeater_yields; [exact Hrs|].
      eapply Forall2_impl; [exact Hrs|]. intros c r. apply Htrans.
    - destruct (Htotal c) as [r Hr].
      eexists. split; apply convertCustom_yields; [exact Hr | by apply Htrans]. }
  rewrite (yields_functional pool V _ _ _ Hs
             (convertField_yields pool options resolve1 V field base H1)).
  by apply convertField_yields.
Qed.

Lemma resolve_budget fuel1 : forall fuel2 V c r,
  unvisited pool V <= fuel1 -> unvisited pool V <= fuel2 ->
  yields pool V (fun v => resolveCustomField fuel1 c pool v options) r ->
  yields pool V (fun v => resolveCustomField fuel2 c pool v options) r.
Proof.
  induction fuel1 as [|fuel1 IH]; intros fuel2 V c r Hb1 Hb2 Hr.
  - destruct (decide (c ∈ V)) as [Hc|Hc]; [|destruct (pool !! c) as [def|] eqn:Hdef].
    + destruct (Hr [V] 0 eq_refl) as (e & E & _).
      rewrite (resolve_cycle pool options 0 c [V] 0 V eq_refl Hc) in E.
      injection E as <- _. intros h v Hv. exists []. rewrite app_nil_r.
      split; [by eapply resolve_cycle | constructor].
    + pose proof (unvisited_enter pool V c Hc (mk_is_Some _ _ Hdef)). lia.
    + destruct (Hr [V] 0 eq_refl) as (e & E & _).
      rewrite (resolve_absent pool options 0 c [V] 0 V eq_refl Hc Hdef) in E.
      injection E as <- _. intros h v Hv. exists []. rewrite app_nil_r.
      split; [by eapply resolve_absent | constructor].
  - destruct (decide (c ∈ V)) as [Hc|Hc]; [|destruct (pool !! c) as [def|] eqn:Hdef].
    + destruct (Hr [V] 0 eq_refl) as (e & E & _).
      rewrite (resolve_cycle pool options (S fuel1) c [V] 0 V eq_refl Hc) in E.
      injection E as <- _. intros h v Hv. exists []. rewrite app_nil_r.
      split; [by eapply resolve_cycle | constructor].
    + pose proof (unvisited_enter pool V c Hc (mk_is_Some _ _ Hdef)) as Hlt.
      destruct fuel2 as [|fuel2]; [lia|].
      destruct (convert_all_enough pool options fuel1 ({[c]} ∪ V) (fields def))
        as [ss Hss]; [lia|].
      destruct (Hr [V] 0 eq_refl) as (e & E & _).
      destruct (resolve_enter pool options fuel1 c def ss [V] 0 V eq_refl Hc Hdef Hss)
        as (e1 & E1 & _).
      rewrite E1 in E. injection E as <- _.
      assert (Forall2 (fun f s =>
                yields pool ({[c]} ∪ V)
                  (fun v => convertField (resolveCustomField fuel2) f pool v options) s)
                (fields def) ss) as Hss2.
      { eapply Forall2_impl; [exact Hss|]. intros f s.
        apply convertField_resolver.
        - intros c'. apply resolve_total. lia.
        - intros c' r'. apply IH; lia. }
      intros h v Hv.
      destruct (resolve_enter pool options fuel2 c def ss h v V Hv Hc Hdef Hss2)
        as (e2 & E2 & F2).
      exists (({[c]} ∪ V) :: e2). split; [exact E2|].
      assert (c ∈ dom pool) by (apply elem_of_dom; eauto).
      constructor; [set_solver|].
      eapply Forall_impl; [exact F2|]. intros path Hp. set_solver.
    + destruct (Hr [V] 0 eq_refl) as (e & E & _).
      rewrite (resolve_absent pool options (S fuel1) c [V] 0 V eq_refl Hc Hdef) in E.
      injection E as <- _. intros h v Hv. exists []. rewrite app_nil_r.
      split; [by eapply resolve_absent | constructor].
Qed.

Lemma convertField_budget fuel1 fuel2 V field s :
  unvisited pool V <= fuel1 -> unvisited pool V <= fuel2 ->
  yields pool V (fun v => convertField (resolveCustomField fuel1) field pool v options) s ->
  yields pool V (fun v => convertField (resolveCustomField fuel2) field pool v options) s.
Proof.
  intros Hb1 Hb2. apply convertField_resolver.
  - intros c. by apply resolve_total.
  - intros c r. by apply resolve_budget.
Qed.

End Budget.

(** ** The loop's variables after the loop *)

Lemma truthyBool_required f : truthyBool (required f) = true <-> required f = Some true.
Proof. destruct (required f) as [[]|]; simpl; split; congruence. Qed.

Lemma assignField_properties acc fss :
  (foldl assignField acc fss).1
  = assignAll acc.1 ((fun fs : MicroCMSField * JSON => (fieldId fs.1, fs.2)) <$> fss).
Proof.
  revert acc. induction fss as [|fs fss IH]; intros acc; [done|].
  cbn [foldl]. rewrite IH, fmap_cons, assignAll_cons. done.
Qed.

Lemma assignField_required acc fss :
  (foldl assignField acc fss).2 = acc.2 ++ requiredIds fss.*1.
Proof.
  revert acc. induction fss as [|fs fss IH]; intros acc.
  - cbn. by rewrite app_nil_r.
  - cbn [foldl]. rewrite IH, fmap_cons. unfold requiredIds, assignField.
    cbn [fst snd]. destruct (truthyBool (required fs.1)) eqn:Hreq.
    + rewrite filter_cons_True by (by apply truthyBool_required).
      rewrite fmap_cons, <- app_assoc. done.
    + rewrite filter_cons_False; [done|].
      rewrite <- truthyBool_required. congruence.
Qed.

Lemma zip_fields_schemas {P : MicroCMSField -> JSON -> Prop} fs ss :
  Forall2 P fs ss ->
  (zip fs ss).*1 = fs /\
  (fun fs : MicroCMSField * JSON => (fieldId fs.1, fs.2)) <$> zip fs ss
  = zip (fieldId <$> fs) ss.
Proof.
  induction 1 as [|f s fs ss _ _ [IH1 IH2]]; [done|].
  cbn [zip zip_with]. rewrite !fmap_cons. cbn [zip zip_with fst snd].
  split; f_equal; done.
Qed.

Lemma keys_zip {A} (ks : list string) (vs : list A) :
  length ks = length vs -> keys (zip ks vs) = ks.
Proof. intros Hlen. unfold keys. apply fst_zip. lia. Qed.

(** The [required] key of an object that had none before [withRequired]. *)
Lemma getProp_withRequired required o :
  getProp "required" o = None ->
  getProp "required" (withRequired required o)
  = match required with
    | [] => None
    | _ => Some (JArr (JStr <$> required))
    end.
Proof.
  intros Hnone. unfold withRequired. destruct required as [|r required]; [done|].
  cbn [length Nat.ltb Nat.leb]. rewrite getProp_setProp by done. by rewrite decide_True.
Qed.

Lemma getProp_withRequired_other k required o :
  k <> "required" -> getProp k (withRequired required o) = getProp k o.
Proof.
  intros Hne. unfold withRequired. destruct (0 <? length required)%nat; [|done].
  by rewrite getProp_setProp_ne.
Qed.

Section Assemblers.

Variable options : option ToJsonSchemaOptions.

(** [toJsonSchema] on fields whose converted schemas are known. *)
Lemma toJsonSchema_with fuel schema ss :
  let pool := buildCustomFieldMap (customFields schema) in
  Forall2 (fun f s =>
    yields pool ∅ (fun v => convertField (resolveCustomField fuel) f pool v options) s)
    (apiFields schema) ss ->
  forall h : Store, exists ext,
    toJsonSchema fuel schema options h
    = Done (envelope options (foldl assignField ([], []) (zip (apiFields schema) ss)),
            h ++ ext) /\
    Forall (fun path => path ⊆ dom pool) ext.
Proof.
  intros pool Hss h.
  destruct (toplevel_loop pool options fuel _ _ Hss ([], []) h) as (ext & E & Fext).
  exists ext. split; [|exact Fext].
  unfold toJsonSchema. fold pool. rewrite (bind_Done _ _ _ _ _ E). done.
Qed.

(** [toJsonSchema] returns when the budget is at least the size of the
    pool, and its result does not depend on the store. *)
Lemma toJsonSchema_run fuel schema :
  let pool := buildCustomFieldMap (customFields schema) in
  size pool <= fuel ->
  exists ss,
    Forall2 (fun f s =>
      yields pool ∅ (fun v => convertField (resolveCustomField fuel) f pool v options) s)
      (apiFields schema) ss /\
    forall h : Store, exists ext,
      toJsonSchema fuel schema options h
      = Done (envelope options (foldl assignField ([], []) (zip (apiFields schema) ss)),
              h ++ ext) /\
      Forall (fun path => path ⊆ dom pool) ext.
Proof.
  intros pool Hfuel.
  destruct (convert_all_enough pool options fuel ∅ (apiFields schema)) as [ss Hss].
  { pose proof (unvisited_le_size pool ∅). lia. }
  exists ss. split; [exact Hss|]. by apply toJsonSchema_with.
Qed.

(** Nor does it depend on the budget. *)
Lemma toJsonSchema_budget fuel1 fuel2 schema (h1 h2 : Store) :
  size (buildCustomFieldMap (customFields schema)) <= fuel1 ->
  size (buildCustomFieldMap (customFields schema)) <= fuel2 ->
  returned (toJsonSchema fuel1 schema options h1)
  = returned (toJsonSchema fuel2 schema options h2).
Proof.
  intros Hb1 Hb2.
  destruct (toJsonSchema_run fuel1 schema Hb1) as (ss & Hss & Hrun1).
  assert (Forall2 (fun f s =>
            yields (buildCustomFieldMap (customFields schema)) ∅
              (fun v => convertField (resolveCustomField fuel2) f
                          (buildCustomFieldMap (customFields schema)) v options) s)
            (apiFields schema) ss) as Hss2.
  { eapply Forall2_impl; [exact Hss|]. intros f s.
    pose proof (unvisited_le_size (buildCustomFieldMap (customFields schema)) ∅).
    apply convertField_budget; lia. }
  destruct (Hrun1 h1) as (e1 & -> & _).
  destruct (toJsonSchema_with fuel2 schema ss Hss2 h2) as (e2 & -> & _).
  done.
Qed.

End Assemblers.

(** The loop of [bundleToJsonSchema]. *)
Lemma bundle_loop fuel entries :
  Forall (fun e => size (buildCustomFieldMap (customFields (api e))) <= fuel) entries ->
  exists outs,
    Forall2 (fun e out => forall h : Store, exists ext,
      toJsonSchema fuel (api e)
        (Some {| title := Some (endpoint e); includeExtensions := None |}) h
      = Done (out, h ++ ext)) entries outs /\
    forall (result : Obj) (h : Store), exists ext,
      forOf entries (fun entry result =>
        let* converted :=
          toJsonSchema fuel (api entry)
            (Some {| title := Some (endpoint entry); includeExtensions := None |}) in
        ret (setProp (endpoint entry) converted result)) result h
      = Done (assignAll result (zip (endpoint <$> entries) outs), h ++ ext).
Proof.
  induction 1 as [|e entries He _ (outs & Houts & IH)].
  - exists []. split; [constructor|]. intros result h. exists [].
    by rewrite app_nil_r.
  - destruct (toJsonSchema_run
                (Some {| title := Some (endpoint e); includeExtensions := None |})
                fuel (api e) He) as (ss & _ & Hrun).
    set (out := envelope
                  (Some {| title := Some (endpoint e); includeExtensions := None |})
                  (foldl assignField ([], []) (zip (apiFields (api e)) ss))) in Hrun.
    exists (out :: outs). split.
    + constructor; [|exact Houts]. intros h. destruct (Hrun h) as (ext & E & _).
      exists ext. exact E.
    + intros result h. destruct (Hrun h) as (e1 & E1 & _).
      destruct (IH (setProp (endpoint e) out result) (h ++ e1)) as (e2 & E2).
      exists (e1 ++ e2). cbn [forOf].
      rewrite (bind_Done _ _ _ _ _ (bind_Done _ _ _ _ _ E1)).
      rewrite E2, app_assoc. done.
Qed.

(** The [required] key of the envelope. *)
Lemma toJsonSchema_required options fuel schema (h : Store) :
  size (buildCustomFieldMap (customFields schema)) <= fuel ->
  exists out h',
    toJsonSchema fuel schema options h = Done (JObj out, h') /\
    getProp "required" out
    = match requiredIds (apiFields schema) with
      | [] => None
      | ids => Some (JArr (JStr <$> ids))
      end.
Proof.
  intros Hfuel.
  destruct (toJsonSchema_run options fuel schema Hfuel) as (ss & Hss & Hrun).
  destruct (Hrun h) as (ext & E & _).
  eexists _, _. split; [exact E|].
  rewrite getProp_withRequired.
  - rewrite assignField_required. cbn [snd app].
    rewrite (proj1 (zip_fields_schemas _ _ Hss)).
    by destruct (requiredIds _).
  - destruct (options ≫= title) as [t|]; [destruct (truthyString t)|]; done.
Qed.

(** ** The pool *)

Lemma foldl_insert_other (m : gmap string MicroCMSCustomFieldDefinition) defs k :
  Forall (fun d => createdAt d <> k) defs ->
  foldl (fun map def => <[createdAt def := def]> map) m defs !! k = m !! k.
Proof.
  intros Hne. revert m. induction Hne as [|d defs Hd _ IH]; intros m; [done|].
  cbn [foldl]. rewrite IH. by apply lookup_insert_ne.
Qed.

Lemma foldl_insert_keyed (m : gmap string MicroCMSCustomFieldDefinition) defs :
  (forall k d, m !! k = Some d -> createdAt d = k) ->
  forall k d,
    foldl (fun map def => <[createdAt def := def]> map) m defs !! k = Some d ->
    createdAt d = k.
Proof.
  revert m. induction defs as [|d0 defs IH]; intros m Hm; [exact Hm|].
  cbn [foldl]. apply IH. intros k d.
  destruct (decide (createdAt d0 = k)) as [<-|Hne].
  - rewrite lookup_insert_eq. by intros [= <-].
  - rewrite lookup_insert_ne by done. apply Hm.
Qed.

(** An entry that a later entry of the same identifier follows leaves no
    trace in the pool. *)
Lemma foldl_insert_shadowed (m : gmap string MicroCMSCustomFieldDefinition)
    earlier between later :
  createdAt earlier = createdAt later ->
  <[createdAt later := later]>
    (foldl (fun map def => <[createdAt def := def]> map)
       (<[createdAt earlier := earlier]> m) between)
  = <[createdAt later := later]>
      (foldl (fun map def => <[createdAt def := def]> map) m between).
Proof.
  intros Hsame. revert m. induction between as [|d between IH]; intros m.
  - cbn [foldl]. rewrite Hsame. apply insert_insert_eq.
  - cbn [foldl]. destruct (decide (createdAt d = createdAt earlier)) as [Hd|Hd].
    + by rewrite Hd, insert_insert_eq, <- Hd.
    + rewrite insert_insert_ne by done. apply IH.
Qed.

(** * The properties of the specification *)

(** C1: resolving an identifier that the resolution path already holds
    returns the minimal untyped object schema [{"type":"object"}] at once:
    at every recursion budget, also an empty one, whatever the pool holds,
    and without creating a Set object, so nothing of the definition is
    entered; the answer is a result, not an error. *)
Theorem cycle_returns_untyped_object fuel createdAt pool visited options
    (h : Store) (V : gset string) :
  h !! visited = Some V -> createdAt ∈ V ->
  resolveCustomField fuel createdAt pool visited options h
  = Done (Some (JObj [("type", JStr "object")]), h).
Proof. apply resolve_cycle. Qed.

Lemma cycle_returns_untyped_object_witness :
  [({["cf-a"]} : gset string)] !! 0 = Some ({["cf-a"]} : gset string) /\
  "cf-a" ∈ ({["cf-a"]} : gset string) /\
  resolveCustomField 0 "cf-a" (buildCustomFieldMap (Some [cfA])) 0 None [{["cf-a"]}]
  = Done (Some (JObj [("type", JStr "object")]), [{["cf-a"]}]).
Proof.
  split; [reflexivity|]. split; [by apply elem_of_singleton|].
  apply (cycle_returns_untyped_object 0 "cf-a" _ 0 None [{["cf-a"]}] {["cf-a"]});
    [reflexivity | by apply elem_of_singleton].
Defined.

(** C2: a repeater field resolves each listed identifier on its own, from
    the store and path the field was given, and keeps the ones that
    resolve, in the order of the list. No success gives [{"type":"array"}],
    without an [items] key; one success gives the array schema whose
    [items] is that schema, without [oneOf]; two or more give the array
    schema whose [items] is the [oneOf] list of the successes. *)
Theorem repeater_assembly fuel pool options field createdAtList visited
    (h : Store) (V : gset string) :
  kind field = repeater createdAtList ->
  h !! visited = Some V -> unvisited pool V <= fuel ->
  exists (resolved : list (option JSON)) (out : JSON) (h' : Store),
    Forall2 (fun createdAt r => exists h1,
      resolveCustomField fuel createdAt pool visited options h = Done (r, h1))
      createdAtList resolved /\
    convertFieldByKind (resolveCustomField fuel) field pool visited options h
    = Done (out, h') /\
    let successes := omap (fun r => r) resolved in
    (successes = [] ->
       out = JObj [("type", JStr "array")] /\ getProp "items" (ownProps out) = None) /\
    (forall only, successes = [only] ->
       out = JObj [("type", JStr "array"); ("items", only)]) /\
    (2 <= length successes ->
       out = JObj [("type", JStr "array"); ("items", JObj [("oneOf", JArr successes)])]).
Proof.
  intros Hkind Hv Hfuel.
  destruct (resolve_all pool options (resolveCustomField fuel) V createdAtList)
    as [resolved Hres].
  { intros c. by apply resolve_total. }
  destruct (convertRepeater_yields pool options _ V _ _ Hres h visited Hv)
    as (ext & E & _).
  exists resolved, (repeaterSchema (omap (fun r => r) resolved)), (h ++ ext).
  split; [|split].
  - eapply Forall2_impl; [exact Hres|]. intros c r Hr.
    destruct (Hr h visited Hv) as (e1 & E1 & _). eauto.
  - unfold convertFieldByKind. rewrite Hkind. exact E.
  - cbn zeta. destruct (omap (fun r => r) resolved) as [|s1 [|s2 rest]]; cbn.
    + split_and!; [done | discriminate | lia].
    + split_and!; [discriminate | by intros ? [= <-] | lia].
    + split_and!; [discriminate | discriminate | done].
Qed.

Lemma repeater_assembly_witness :
  exists (resolved : list (option JSON)) (out : JSON) (h' : Store),
    Forall2 (fun createdAt r => exists h1,
      resolveCustomField 2 createdAt (buildCustomFieldMap (Some [cfB; cfC])) 0 None [∅]
      = Done (r, h1))
      ["cf-b"; "cf-x"; "cf-c"] resolved /\
    convertFieldByKind (resolveCustomField 2)
      (sampleField "blocks" None (repeater ["cf-b"; "cf-x"; "cf-c"]))
      (buildCustomFieldMap (Some [cfB; cfC])) 0 None [∅]
    = Done (out, h') /\
    let successes := omap (fun r => r) resolved in
    (successes = [] ->
       out = JObj [("type", JStr "array")] /\ getProp "items" (ownProps out) = None) /\
    (forall only, successes = [only] ->
       out = JObj [("type", JStr "array"); ("items", only)]) /\
    (2 <= length successes ->
       out = JObj [("type", JStr "array"); ("items", JObj [("oneOf", JArr successes)])]).
Proof.
  apply (repeater_assembly 2 (buildCustomFieldMap (Some [cfB; cfC])) None
           (sampleField "blocks" None (repeater ["cf-b"; "cf-x"; "cf-c"]))
           ["cf-b"; "cf-x"; "cf-c"] 0 [∅] ∅).
  - reflexivity.
  - reflexivity.
  - vm_compute. lia.
Defined.

(** C7: a custom field whose identifier the pool does not hold converts to
    the untyped object schema [{"type":"object"}], whatever the path and at
    every budget; with the extension option the three provenance keys are
    added to it. The conversion of any field returns a schema: the converter
    has no error outcome. *)
Theorem absent_custom_is_untyped_object fuel pool options field createdAt
    visited (h : Store) :
  kind field = custom createdAt -> pool !! createdAt = None ->
  convertCustom (resolveCustomField fuel) createdAt pool visited options h
  = Done (JObj [("type", JStr "object")], h) /\
  convertFieldByKind (resolveCustomField fuel) field pool visited options h
  = Done (JObj [("type", JStr "object")], h) /\
  (exists out,
     convertField (resolveCustomField fuel) field pool visited options h
     = Done (JObj out, h) /\
     getProp "type" out = Some (JStr "object") /\
     getProp "properties" out = None /\
     (truthyBool (options ≫= includeExtensions) = false ->
      out = [("type", JStr "object")])) /\
  (forall any V budget,
     h !! visited = Some V -> unvisited pool V <= budget ->
     exists schema h',
       convertField (resolveCustomField budget) any pool visited options h
       = Done (schema, h')).
Proof.
  intros Hkind Habsent.
  assert (convertCustom (resolveCustomField fuel) createdAt pool visited options h
          = Done (JObj [("type", JStr "object")], h)) as Hcustom.
  { unfold convertCustom.
    destruct (resolve_no_definition pool options fuel createdAt h visited Habsent)
      as [E|E]; rewrite (bind_Done _ _ _ _ _ E); done. }
  assert (convertFieldByKind (resolveCustomField fuel) field pool visited options h
          = Done (JObj [("type", JStr "object")], h)) as Hkinded.
  { unfold convertFieldByKind. rewrite Hkind. exact Hcustom. }
  split_and!; [exact Hcustom | exact Hkinded | |].
  - unfold convertField. rewrite (bind_Done _ _ _ _ _ Hkinded).
    destruct (truthyBool (options ≫= includeExtensions)).
    + eexists. split; [reflexivity|]. split_and!; [done | done | discriminate].
    + eexists. split; [reflexivity|]. split_and!; done.
  - intros any V budget Hv Hbudget.
    destruct (convertField_enough pool options budget V any Hbudget) as [s Hs].
    destruct (Hs h visited Hv) as (ext & E & _). eauto.
Qed.

Lemma absent_custom_is_untyped_object_witness :
  convertField (resolveCustomField 0)
    (sampleField "block" None (custom "cf-none"))
    (buildCustomFieldMap (Some [cfA])) 0 None [∅]
  = Done (JObj [("type", JStr "object")], [∅]).
Proof.
  destruct (absent_custom_is_untyped_object 0 (buildCustomFieldMap (Some [cfA])) None
              (sampleField "block" None (custom "cf-none")) "cf-none" 0 [∅])
    as (_ & _ & (out & E & _ & _ & Hout) & _);
    [reflexivity | reflexivity |].
  rewrite E, Hout; reflexivity.
Defined.

(** C6: the list under [required] of an assembled object schema, at the top
    level and in the resolution of a definition alike, holds the
    identifiers of the fields whose required flag is set, in the order of
    the fields; when no field sets the flag the object has no [required]
    key. *)
Theorem required_list_of_siblings fuel options :
  (forall schema (h : Store),
     size (buildCustomFieldMap (customFields schema)) <= fuel ->
     exists out h',
       toJsonSchema fuel schema options h = Done (JObj out, h') /\
       getProp "required" out
       = match requiredIds (apiFields schema) with
         | [] => None
         | ids => Some (JArr (JStr <$> ids))
         end) /\
  (forall pool createdAt def visited (h : Store) (V : gset string),
     h !! visited = Some V -> createdAt ∉ V -> pool !! createdAt = Some def ->
     unvisited pool V <= fuel ->
     exists out h',
       resolveCustomField fuel createdAt pool visited options h
       = Done (Some (JObj out), h') /\
       getProp "required" out
       = match requiredIds (fields def) with
         | [] => None
         | ids => Some (JArr (JStr <$> ids))
         end).
Proof.
  split.
  - intros schema h Hfuel. by apply toJsonSchema_required.
  - intros pool createdAt def visited h V Hv Hc Hdef Hfuel.
    destruct (resolve_enough_enter pool options fuel createdAt def h visited V
                Hv Hc Hdef Hfuel) as (fuel' & ss & ext & -> & Hss & E & _).
    eexists _, _. split; [exact E|].
    rewrite getProp_withRequired by done.
    rewrite assignField_required. cbn [snd app].
    rewrite (proj1 (zip_fields_schemas _ _ Hss)).
    by destruct (requiredIds _).
Qed.

Lemma required_list_of_siblings_witness :
  (exists out h',
     toJsonSchema 2 mutualSchema None [] = Done (JObj out, h') /\
     getProp "required" out = Some (JArr [JStr "first"])) /\
  (exists out h',
     resolveCustomField 2 "cf-b" (buildCustomFieldMap (Some [cfB; cfC])) 0 None [∅]
     = Done (Some (JObj out), h') /\
     getProp "required" out = Some (JArr [JStr "label"])) /\
  (exists out h',
     resolveCustomField 1 "cf-a" (buildCustomFieldMap (Some [cfA])) 0 None [∅]
     = Done (Some (JObj out), h') /\
     getProp "required" out = None).
Proof.
  split_and!.
  - destruct (proj1 (required_list_of_siblings 2 None) mutualSchema [])
      as (out & h' & E & Hreq); [vm_compute; lia|].
    exists out, h'. split; [exact E | exact Hreq].
  - destruct (proj2 (required_list_of_siblings 2 None)
                (buildCustomFieldMap (Some [cfB; cfC])) "cf-b" cfB 0 [∅] ∅)
      as (out & h' & E & Hreq);
      [reflexivity | apply not_elem_of_empty | reflexivity | vm_compute; lia |].
    exists out, h'. split; [exact E | exact Hreq].
  - destruct (proj2 (required_list_of_siblings 1 None)
                (buildCustomFieldMap (Some [cfA])) "cf-a" cfA 0 [∅] ∅)
      as (out & h' & E & Hreq);
      [reflexivity | apply not_elem_of_empty | reflexivity | vm_compute; lia |].
    exists out, h'. split; [exact E | exact Hreq].
Defined.

(** C9, as the code has it: the envelope carries the caller's title when
    the title option is present and is not the empty string; without a title
    option, and with the empty string as the title, the envelope has no
    [title] key. *)
Theorem title_of_envelope fuel schema options (h : Store) :
  size (buildCustomFieldMap (customFields schema)) <= fuel ->
  exists out h',
    toJsonSchema fuel schema options h = Done (JObj out, h') /\
    getProp "title" out
    = match options ≫= title with
      | Some t => if decide (t = EmptyString) then None else Some (JStr t)
      | None => None
      end.
Proof.
  intros Hfuel.
  destruct (toJsonSchema_run options fuel schema Hfuel) as (ss & Hss & Hrun).
  destruct (Hrun h) as (ext & E & _).
  eexists _, _. split; [exact E|].
  rewrite getProp_withRequired_other by done.
  destruct (options ≫= title) as [t|]; [|done].
  unfold truthyString. destruct (decide (t = EmptyString)); [done|].
  rewrite getProp_setProp by done. by rewrite decide_True.
Qed.

Lemma title_of_envelope_witness :
  exists out h',
    toJsonSchema 1 circularSchema
      (Some {| title := Some "MyAPI"; includeExtensions := None |}) []
    = Done (JObj out, h') /\
    getProp "title" out = Some (JStr "MyAPI").
Proof.
  destruct (title_of_envelope 1 circularSchema
              (Some {| title := Some "MyAPI"; includeExtensions := None |}) [])
    as (out & h' & E & Htitle); [vm_compute; lia|].
  exists out, h'. split; [exact E | exact Htitle].
Defined.

(** C9, as the specification has it, fails: a title option that is present
    and is the empty string is dropped, the envelope has no [title] key. *)
Lemma empty_title_is_dropped :
  toJsonSchema 0 emptySchema
    (Some {| title := Some EmptyString; includeExtensions := None |}) []
  = Done (JObj [("$schema", JStr "http://json-schema.org/draft-07/schema#");
                ("type", JStr "object");
                ("properties", JObj [])], []) /\
  getProp "title" [("$schema", JStr "http://json-schema.org/draft-07/schema#");
                   ("type", JStr "object");
                   ("properties", JObj [])]
  <> Some (JStr EmptyString).
Proof. split; [reflexivity | discriminate]. Qed.

(** C4: conversion returns. With a recursion budget of the size of the
    pool, the entry point returns a schema for every input, whatever the
    references between the definitions; every resolution path it builds
    holds identifiers of the pool only, so never more than the pool has;
    a larger budget, or another store, gives the same schema. A bundle is
    converted likewise. Each nested resolution copies the path and extends
    the copy by the one identifier it enters, which the path did not
    hold. *)
Theorem conversion_terminates fuel :
  (forall schema options (h : Store),
     let pool := buildCustomFieldMap (customFields schema) in
     size pool <= fuel ->
     exists out ext,
       toJsonSchema fuel schema options h = Done (out, h ++ ext) /\
       Forall (fun path : gset string =>
                 path ⊆ dom pool /\ size path <= size pool) ext) /\
  (forall schema options more (h h0 : Store),
     size (buildCustomFieldMap (customFields schema)) <= fuel ->
     returned (toJsonSchema (fuel + more) schema options h0)
     = returned (toJsonSchema fuel schema options h)) /\
  (forall bundle (h : Store),
     Forall (fun e => size (buildCustomFieldMap (customFields (api e))) <= fuel)
       (apis bundle) ->
     exists out ext, bundleToJsonSchema fuel bundle h = Done (out, h ++ ext)) /\
  (forall pool options createdAt def visited (h : Store) (V : gset string),
     h !! visited = Some V -> createdAt ∉ V -> pool !! createdAt = Some def ->
     unvisited pool V <= fuel ->
     exists out ext,
       resolveCustomField fuel createdAt pool visited options h
       = Done (out, h ++ ({[createdAt]} ∪ V) :: ext) /\
       size ({[createdAt]} ∪ V) = S (size V) /\
       Forall (fun path : gset string => path ⊆ V ∪ dom pool) ext).
Proof.
  split_and!.
  - intros schema options h pool Hfuel.
    destruct (toJsonSchema_run options fuel schema Hfuel) as (ss & _ & Hrun).
    destruct (Hrun h) as (ext & E & Fext).
    eexists _, ext. split; [exact E|].
    eapply Forall_impl; [exact Fext|]. intros path Hp. split; [done|].
    fold pool in Hp. rewrite <- (size_dom (D := gset string) pool).
    by apply subseteq_size.
  - intros schema options more h h0 Hfuel.
    apply toJsonSchema_budget; lia.
  - intros bundle h Hfuel.
    destruct (bundle_loop fuel (apis bundle) Hfuel) as (outs & _ & Hloop).
    destruct (Hloop [] h) as (ext & E). eauto.
  - intros pool options createdAt def visited h V Hv Hc Hdef Hfuel.
    destruct (resolve_enough_enter pool options fuel createdAt def h visited V
                Hv Hc Hdef Hfuel) as (fuel' & ss & ext & -> & _ & E & Fext).
    eexists _, ext. split_and!; [exact E | | exact Fext].
    rewrite size_union by set_solver. by rewrite size_singleton.
Qed.

Lemma conversion_terminates_witness :
  (exists out ext, toJsonSchema 2 mutualSchema None [] = Done (out, ext)) /\
  (exists out ext, toJsonSchema 1 circularSchema None [] = Done (out, ext)) /\
  returned (toJsonSchema (1 + 5) circularSchema None [∅])
  = returned (toJsonSchema 1 circularSchema None []) /\
  (exists out ext, bundleToJsonSchema 2 sampleBundle [] = Done (out, ext)) /\
  (exists out ext,
     resolveCustomField 1 "cf-c" (buildCustomFieldMap (Some [cfB; cfC])) 0 None
       [{["cf-b"]}]
     = Done (out, [{["cf-b"]}] ++ ({["cf-c"]} ∪ {["cf-b"]}) :: ext) /\
     size ({["cf-c"]} ∪ {["cf-b"]} : gset string) = 2).
Proof.
  destruct (conversion_terminates 2) as (Hschema2 & _ & Hbundle & _).
  destruct (conversion_terminates 1) as (Hschema1 & Hbudget & _ & Hstep).
  split_and!.
  - destruct (Hschema2 mutualSchema None []) as (out & ext & E & _);
      [vm_compute; lia|]. eauto.
  - destruct (Hschema1 circularSchema None []) as (out & ext & E & _);
      [vm_compute; lia|]. eauto.
  - apply (Hbudget circularSchema None 5 [] [∅]). vm_compute; lia.
  - destruct (Hbundle sampleBundle []) as (out & ext & E);
      [repeat constructor; vm_compute; lia|]. eauto.
  - destruct (Hstep (buildCustomFieldMap (Some [cfB; cfC])) None "cf-c" cfC 0
                [{["cf-b"]}] {["cf-b"]})
      as (out & ext & E & Hsize & _).
    + reflexivity.
    + intros Hin. apply elem_of_singleton in Hin. discriminate.
    + reflexivity.
    + vm_compute. lia.
    + exists out, ext. split; [exact E | exact Hsize].
Defined.

(** C3, as the code has it: resolving an identifier that the pool holds and
    the path does not returns an object schema. When no field of the
    definition has the identifier [__proto__], its [properties] has one key
    for every field identifier: the identifiers that are array indices
    first, in ascending numeric order, then the others in the order in
    which they first occur; the value under an identifier is the converted
    schema of the last field that bears it. When moreover no identifier is
    an array index and the identifiers differ from one another, that is
    every field's own converted schema, in the order of the fields. The
    fields are converted on the path extended by the identifier, and their
    schemas are the same at every sufficient budget. The [required] key is
    the one that the top-level assembler gives to the same fields. *)
Theorem resolution_assembles_definition fuel pool options createdAt def
    visited (h : Store) (V : gset string) :
  h !! visited = Some V -> createdAt ∉ V -> pool !! createdAt = Some def ->
  unvisited pool V <= S fuel ->
  "__proto__" ∉ fieldId <$> fields def ->
  exists (converted : list JSON) (properties : Obj) (h' : Store),
    Forall2 (fun f s =>
      forall budget,
        unvisited pool ({[createdAt]} ∪ V) <= budget ->
        yields pool ({[createdAt]} ∪ V)
          (fun v => convertField (resolveCustomField budget) f pool v options) s)
      (fields def) converted /\
    resolveCustomField (S fuel) createdAt pool visited options h
    = Done (Some (JObj (withRequired (requiredIds (fields def))
                          [("type", JStr "object");
                           ("properties", JObj properties)])), h') /\
    (forall i f s,
       fields def !! i = Some f -> converted !! i = Some s ->
       (forall j f', i < j -> fields def !! j = Some f' -> fieldId f' <> fieldId f) ->
       getProp (fieldId f) properties = Some s) /\
    (forall k, k ∈ keys properties <-> k ∈ fieldId <$> fields def) /\
    ownKeyOrder (fieldId <$> fields def) (keys properties) /\
    (Forall (fun k => arrayIndex k = None) (fieldId <$> fields def) ->
     keys properties = firstOccurrences (fieldId <$> fields def) /\
     (NoDup (fieldId <$> fields def) ->
      properties = zip (fieldId <$> fields def) converted)) /\
    (forall customFields budget topOptions (h0 : Store),
       size (buildCustomFieldMap customFields) <= budget ->
       exists top h0',
         toJsonSchema budget
           {| apiFields := fields def; customFields := customFields |}
           topOptions h0
         = Done (JObj top, h0') /\
         getProp "required" top
         = getProp "required"
             (withRequired (requiredIds (fields def))
                [("type", JStr "object"); ("properties", JObj properties)])).
Proof.
  intros Hv Hc Hdef Hfuel Hproto.
  destruct (resolve_enough_enter pool options (S fuel) createdAt def h visited V
              Hv Hc Hdef Hfuel) as (fuel' & ss & ext & [= <-] & Hss & E & _).
  pose proof (Forall2_length _ _ _ Hss) as Hlen.
  destruct (zip_fields_schemas _ _ Hss) as [Hfst Hzip].
  unfold objectSchema in E.
  rewrite assignField_required, assignField_properties, Hfst, Hzip in E.
  cbn [fst snd app] in E.
  pose proof (unvisited_enter pool V createdAt Hc (mk_is_Some _ _ Hdef)) as Hlt.
  pose proof (keys_assembled (fieldId <$> fields def) ss
                ltac:(by rewrite length_fmap)) as Horder.
  eexists ss, _, _. split_and!; [ | exact E | | | exact Horder | |].
  - eapply Forall2_impl; [exact Hss|]. intros f s Hs budget Hbudget.
    apply (convertField_budget pool options fuel budget); [lia | done | done].
  - intros i f s Hf Hs Hlast.
    apply (getProp_assignAll_lookup _ _ _ i).
    + intros Heq. apply Hproto. rewrite <- Heq.
      apply list_elem_of_fmap_2. by eapply list_elem_of_lookup_2.
    + by rewrite length_fmap.
    + by rewrite list_lookup_fmap, Hf.
    + done.
    + intros j k' Hij Hk'. rewrite list_lookup_fmap in Hk'.
      destruct (fields def !! j) as [f'|] eqn:Hf'; [|done].
      injection Hk' as <-. by eapply Hlast.
  - intros k. rewrite (ownKeyOrder_elem _ _ k Horder). split; [tauto|].
    intros Hk. split; [done|]. by intros ->.
  - intros Hnames.
    assert (Forall plainName (fieldId <$> fields def)) as Hplain.
    { apply Forall_forall. intros k Hk. split.
      - by eapply Forall_forall in Hnames.
      - by intros ->. }
    split; [by apply ownKeyOrder_plain|].
    intros Hnd. apply assembled_plain; [by rewrite length_fmap | done | done].
  - intros customFields budget topOptions h0 Hbudget.
    destruct (toJsonSchema_required topOptions budget
                {| apiFields := fields def; customFields := customFields |} h0 Hbudget)
      as (top & h0' & Etop & Hreq).
    exists top, h0'. split; [exact Etop|].
    rewrite Hreq. cbn [apiFields]. rewrite getProp_withRequired by done.
    by destruct (requiredIds _).
Qed.

Lemma resolution_assembles_definition_witness :
  (exists (converted : list JSON) (h' : Store),
     resolveCustomField 2 "cf-b" (buildCustomFieldMap (Some [cfB; cfC])) 0 None [∅]
     = Done (Some (JObj [("type", JStr "object");
                         ("properties", JObj (zip ["label"; "next"] converted));
                         ("required", JArr [JStr "label"])]), h')) /\
  (exists (properties : Obj) (h' : Store),
     resolveCustomField 1 "cf-num" (buildCustomFieldMap (Some [cfNum])) 0 None [∅]
     = Done (Some (JObj [("type", JStr "object");
                         ("properties", JObj properties)]), h') /\
     ownKeyOrder ["z"; "10"; "2"] (keys properties) /\
     getProp "10" properties = Some (JObj [("type", JStr "string");
                                           ("format", JStr "date-time")])).
Proof.
  split.
  - destruct (resolution_assembles_definition 1 (buildCustomFieldMap (Some [cfB; cfC]))
                None "cf-b" cfB 0 [∅] ∅)
      as (converted & properties & h' & _ & E & _ & _ & _ & Hnames & _).
    + reflexivity.
    + apply not_elem_of_empty.
    + reflexivity.
    + vm_compute. lia.
    + cbn. decide_it.
    + exists converted, h'. rewrite E.
      destruct Hnames as [_ Hdistinct]; [cbn; decide_it|].
      rewrite Hdistinct by (cbn; decide_it). reflexivity.
  - destruct (resolution_assembles_definition 0 (buildCustomFieldMap (Some [cfNum]))
                None "cf-num" cfNum 0 [∅] ∅)
      as (converted & properties & h' & Hconv & E & Hlast & _ & Horder & _).
    + reflexivity.
    + apply not_elem_of_empty.
    + reflexivity.
    + vm_compute. lia.
    + cbn. decide_it.
    + exists properties, h'. split_and!; [exact E | exact Horder |].
      inversion Hconv as [|f0 s0 fs0 ss0 _ Htl]; subst.
      inversion Htl as [|f1 s1 fs1 ss1 Hdate _]; subst.
      destruct (Hdate 0 ltac:(vm_compute; lia) [{["cf-num"]} ∪ ∅] 0 eq_refl)
        as (e & Erun & _).
      cbn in Erun. injection Erun as <- _.
      apply (Hlast 1 (sampleField "10" None (date None))); [reflexivity | reflexivity |].
      intros [|[|[|j]]] f' Hj Hf'; try lia; try discriminate.
      injection Hf' as <-. discriminate.
Defined.

(** C3, as the specification has it, fails. Of two fields under one
    identifier, the first does not find its converted schema in
    [properties], which holds one key for the two fields. The keys of
    [properties] are not in the order of the fields when an identifier is
    an array index: the fields [z], [10], [2] give the keys [2], [10],
    [z]. And a field under the identifier [__proto__] has no key in
    [properties], though [required] lists it. *)
Lemma duplicate_field_identifier_overwrites :
  returned (resolveCustomField 1 "cf-dup" (buildCustomFieldMap (Some [cfDup])) 0 None [∅])
  = Done (Some (JObj [("type", JStr "object");
                      ("properties", JObj [("a", JObj [("type", JStr "number")])])])) /\
  returned (convertField (resolveCustomField 0) (sampleField "a" None (text None))
              (buildCustomFieldMap (Some [cfDup])) 0 None [{["cf-dup"]}])
  = Done (JObj [("type", JStr "string")]) /\
  getProp "a" [("a", JObj [("type", JStr "number")])]
  <> Some (JObj [("type", JStr "string")]) /\
  keys [("a", JObj [("type", JStr "number")])] <> fieldId <$> fields cfDup /\
  returned (resolveCustomField 1 "cf-num" (buildCustomFieldMap (Some [cfNum])) 0 None [∅])
  = Done (Some (JObj [("type", JStr "object");
                      ("properties",
                       JObj [("2", JObj [("type", JStr "boolean")]);
                             ("10", JObj [("type", JStr "string");
                                          ("format", JStr "date-time")]);
                             ("z", JObj [("type", JStr "string")])])])) /\
  ["2"; "10"; "z"] <> fieldId <$> fields cfNum /\
  returned (resolveCustomField 1 "cf-proto" (buildCustomFieldMap (Some [cfProto])) 0 None [∅])
  = Done (Some (JObj [("type", JStr "object");
                      ("properties",
                       JObj [("a", JObj [("type", JStr "string");
                                         ("format", JStr "date-time")])]);
                      ("required", JArr [JStr "__proto__"])])) /\
  ["a"] <> fieldId <$> fields cfProto.
Proof.
  split_and!;
    [reflexivity | reflexivity | discriminate | discriminate | reflexivity | discriminate
    | reflexivity | discriminate].
Qed.

(** C5: the resolution path is scoped by value. The source passes the path
    as a Set object, and a resolution copies the object before it extends
    it: a call never writes to a Set object that existed before it. So the
    answer for an identifier depends on the store only through the contents
    of the path, and in a repeater every listed identifier is resolved on
    the path the field was given: the schema an identifier contributes is
    the one it resolves to alone, whatever is listed before and after it,
    and whatever sibling field was converted before. *)
Theorem path_is_value_scoped fuel pool options createdAt visited
    (h : Store) (V : gset string) :
  h !! visited = Some V -> unvisited pool V <= fuel ->
  exists alone : option JSON,
    yields pool V (fun v => resolveCustomField fuel createdAt pool v options) alone /\
    (exists h1, resolveCustomField fuel createdAt pool visited options h
                = Done (alone, h1)) /\
    (forall before after, exists resolvedBefore resolvedAfter ext,
       Forall2 (fun c r =>
         yields pool V (fun v => resolveCustomField fuel c pool v options) r)
         before resolvedBefore /\
       Forall2 (fun c r =>
         yields pool V (fun v => resolveCustomField fuel c pool v options) r)
         after resolvedAfter /\
       convertRepeater (resolveCustomField fuel) (before ++ createdAt :: after)
         pool visited options h
       = Done (repeaterSchema (omap (fun r => r) resolvedBefore
                                 ++ option_list alone
                                 ++ omap (fun r => r) resolvedAfter),
               h ++ ext) /\
       (h ++ ext) !! visited = Some V) /\
    (forall sibling, exists schema ext h2,
       convertField (resolveCustomField fuel) sibling pool visited options h
       = Done (schema, h ++ ext) /\
       (h ++ ext) !! visited = Some V /\
       resolveCustomField fuel createdAt pool visited options (h ++ ext)
       = Done (alone, h2)).
Proof.
  intros Hv Hfuel.
  destruct (resolve_total pool options fuel V createdAt Hfuel) as [alone Halone].
  exists alone. split_and!; [exact Halone | | |].
  - destruct (Halone h visited Hv) as (ext & E & _). eauto.
  - intros before after.
    destruct (resolve_all pool options (resolveCustomField fuel) V before)
      as [rb Hrb]; [intros c; by apply resolve_total|].
    destruct (resolve_all pool options (resolveCustomField fuel) V after)
      as [ra Hra]; [intros c; by apply resolve_total|].
    assert (Forall2 (fun c r =>
              yields pool V (fun v => resolveCustomField fuel c pool v options) r)
              (before ++ createdAt :: after) (rb ++ alone :: ra)) as Hall.
    { apply Forall2_app; [done|]. by constructor. }
    destruct (convertRepeater_yields pool options _ V _ _ Hall h visited Hv)
      as (ext & E & _).
    exists rb, ra, ext. split_and!; [done | done | | by apply lookup_app_l_Some].
    rewrite E. do 3 f_equal. rewrite omap_app. f_equal.
    destruct alone; done.
  - intros sibling.
    destruct (convertField_enough pool options fuel V sibling Hfuel) as [s Hs].
    destruct (Hs h visited Hv) as (ext & E & _).
    pose proof (lookup_app_l_Some _ ext _ _ Hv) as Hv'.
    destruct (Halone (h ++ ext) visited Hv') as (e2 & E2 & _).
    eauto 10.
Qed.

Lemma path_is_value_scoped_witness :
  exists alone : option JSON,
    (exists h1,
       resolveCustomField 2 "cf-c" (buildCustomFieldMap (Some [cfB; cfC])) 0 None [∅]
       = Done (alone, h1)) /\
    (exists resolvedBefore ext,
       Forall2 (fun c r =>
         yields (buildCustomFieldMap (Some [cfB; cfC])) ∅
           (fun v => resolveCustomField 2 c (buildCustomFieldMap (Some [cfB; cfC])) v None) r)
         ["cf-b"] resolvedBefore /\
       convertRepeater (resolveCustomField 2) ["cf-b"; "cf-c"]
         (buildCustomFieldMap (Some [cfB; cfC])) 0 None [∅]
       = Done (repeaterSchema (omap (fun r => r) resolvedBefore ++ option_list alone),
               [∅] ++ ext)).
Proof.
  destruct (path_is_value_scoped 2 (buildCustomFieldMap (Some [cfB; cfC])) None
              "cf-c" 0 [∅] ∅) as (alone & _ & Halone & Hrep & _).
  - reflexivity.
  - vm_compute. lia.
  - exists alone. split; [exact Halone|].
    destruct (Hrep ["cf-b"] []) as (rb & ra & ext & Hrb & Hra & E & _).
    exists rb, ext. split; [exact Hrb|].
    inversion Hra; subst. cbn [omap] in E. rewrite app_nil_r in E. exact E.
Defined.

(** C8: the pool is keyed by the identifier of its definitions, one
    definition for an identifier. Of two entries of the list under one
    identifier the earlier one leaves no trace: the pool is the pool of the
    list without it. The pool holds the last entry of an identifier, and
    resolving the identifier assembles the fields of that entry. *)
Theorem pool_last_definition_wins before earlier between later after :
  createdAt earlier = createdAt later ->
  Forall (fun d => createdAt d <> createdAt later) after ->
  let pool :=
    buildCustomFieldMap (Some (before ++ earlier :: between ++ later :: after)) in
  (forall k d, pool !! k = Some d -> createdAt d = k) /\
  pool = buildCustomFieldMap (Some (before ++ between ++ later :: after)) /\
  pool !! createdAt later = Some later /\
  (forall fuel options visited (h : Store) (V : gset string),
     h !! visited = Some V -> createdAt later ∉ V -> unvisited pool V <= S fuel ->
     exists converted ext,
       Forall2 (fun f s =>
         yields pool ({[createdAt later]} ∪ V)
           (fun v => convertField (resolveCustomField fuel) f pool v options) s)
         (fields later) converted /\
       resolveCustomField (S fuel) (createdAt later) pool visited options h
       = Done (Some (objectSchema
                       (foldl assignField ([], []) (zip (fields later) converted))),
               h ++ ext)).
Proof.
  intros Hsame Hafter pool.
  assert (pool !! createdAt later = Some later) as Hlater.
  { unfold pool, buildCustomFieldMap.
    rewrite foldl_app. cbn [foldl]. rewrite foldl_app. cbn [foldl].
    rewrite foldl_insert_other by done. apply lookup_insert_eq. }
  split_and!.
  - unfold pool, buildCustomFieldMap. apply foldl_insert_keyed.
    intros k d. by rewrite lookup_empty.
  - unfold pool, buildCustomFieldMap.
    rewrite !foldl_app. cbn [foldl]. rewrite !foldl_app. cbn [foldl].
    by rewrite foldl_insert_shadowed.
  - exact Hlater.
  - intros fuel options visited h V Hv Hc Hfuel.
    destruct (resolve_enough_enter pool options (S fuel) (createdAt later) later
                h visited V Hv Hc Hlater Hfuel)
      as (fuel' & ss & ext & [= <-] & Hss & E & _).
    eauto.
Qed.

Lemma pool_last_definition_wins_witness :
  buildCustomFieldMap (Some [cfOld; cfA; cfNew]) !! "cf-v" = Some cfNew /\
  buildCustomFieldMap (Some [cfOld; cfA; cfNew])
  = buildCustomFieldMap (Some [cfA; cfNew]) /\
  returned (resolveCustomField 1 "cf-v" (buildCustomFieldMap (Some [cfOld; cfA; cfNew]))
              0 None [∅])
  = Done (Some (JObj [("type", JStr "object");
                      ("properties", JObj [("fresh", JObj [("type", JStr "boolean")])]);
                      ("required", JArr [JStr "fresh"])])).
Proof.
  destruct (pool_last_definition_wins [] cfOld [cfA] cfNew [])
    as (_ & Hpool & Hlookup & _); [reflexivity | constructor |].
  split_and!; [exact Hlookup | exact Hpool | reflexivity].
Defined.

(** C10 holds of every endpoint name but one, and the code misses that
    one. For an entry whose endpoint is named [__proto__], the assignment
    [result[entry.endpoint] = ...] does not create a property: it sets the
    prototype of the record. A bundle that names the endpoint [__proto__]
    twice has one distinct endpoint name, and the record returned for it
    has no key at all: the schema of the last entry, converted with the
    name as its title, is no value of the record. *)
Theorem bundle_endpoint_proto_has_no_key :
  endpoint <$> apis protoBundle = ["__proto__"; "__proto__"] /\
  returned (bundleToJsonSchema 1 protoBundle []) = Done [] /\
  keys ([] : Obj) <> ["__proto__"] /\
  returned (toJsonSchema 1 emptySchema
              (Some {| title := Some "__proto__"; includeExtensions := None |}) [])
  = Done (JObj [("$schema", JStr "http://json-schema.org/draft-07/schema#");
                ("type", JStr "object");
                ("properties", JObj []);
                ("title", JStr "__proto__")]) /\
  getProp "__proto__" ([] : Obj) = None.
Proof. split_and!; [reflexivity | reflexivity | discriminate | reflexivity | reflexivity]. Qed.

(** * Further properties of the converter *)

(** ** What a run returns *)

Lemma post_ret {A} (a : A) (Q : A -> Prop) : Q a -> post (ret a) Q.
Proof. intros Ha h a' h' [= <- _]. done. Qed.

Lemma post_bind {A B} (m : M A) (k : A -> M B) (Q1 : A -> Prop) (Q : B -> Prop) :
  post m Q1 -> (forall a, Q1 a -> post (k a) Q) -> post (bind m k) Q.
Proof.
  intros Hm Hk h b h'. unfold bind.
  destruct (m h) as [[a h1]|] eqn:E; [|done].
  intros Hrun. eapply Hk; [|exact Hrun]. by eapply Hm.
Qed.

Lemma post_weaken {A} (m : M A) (Q1 Q2 : A -> Prop) :
  post m Q1 -> (forall a, Q1 a -> Q2 a) -> post m Q2.
Proof. intros Hm Himp h a h' E. apply Himp. by eapply Hm. Qed.

Lemma post_forOf {A S} (xs : list A) (body : A -> S -> M S) (Inv : S -> Prop) :
  (forall x s, x ∈ xs -> Inv s -> post (body x s) Inv) ->
  forall s, Inv s -> post (forOf xs body s) Inv.
Proof.
  induction xs as [|x xs IH]; intros Hbody s Hs; cbn [forOf].
  - by apply post_ret.
  - eapply post_bind.
    + apply Hbody; [apply list_elem_of_here | done].
    + intros s' Hs'. apply IH; [|done].
      intros y t Hy. apply Hbody. by apply list_elem_of_further.
Qed.

(** ** The shape of the schemas *)

Ltac literal_schema :=
  eexists; split; [reflexivity|]; split; cbn; decide_it.

Section Shapes.

Variable pool : gmap string MicroCMSCustomFieldDefinition.
Variable options : option ToJsonSchemaOptions.

Section Kinds.

Variable resolve :
  string -> gmap string MicroCMSCustomFieldDefinition -> SetRef ->
  option ToJsonSchemaOptions -> M (option JSON).
Variable visited : SetRef.
Hypothesis resolve_good : forall c, post (resolve c pool visited options) resolvedSchema.

Lemma post_convertCustom c :
  post (convertCustom resolve c pool visited options) kindSchema.
Proof.
  unfold convertCustom. eapply post_bind; [apply resolve_good|].
  intros [s|] Hr; apply post_ret; [by apply Hr | literal_schema].
Qed.

Lemma post_convertRepeater cs :
  post (convertRepeater resolve cs pool visited options) kindSchema.
Proof.
  unfold convertRepeater. eapply (post_bind _ _ (fun _ => True)).
  - by apply (post_forOf _ _ (fun _ => True)).
  - intros schemas _.
    destruct schemas as [|s1 [|s2 rest]]; cbn [length Nat.eqb]; apply post_ret;
      literal_schema.
Qed.

Lemma post_convertFieldByKind field :
  post (convertFieldByKind resolve field pool visited options) kindSchema.
Proof.
  unfold convertFieldByKind.
  destruct (kind field) as [| | |[] items ?|lo hi| |initial| | | |cs|c|];
    try (apply post_ret; literal_schema).
  - apply post_ret. destruct lo, hi; literal_schema.
  - apply post_ret. destruct initial; literal_schema.
  - apply post_convertRepeater.
  - apply post_convertCustom.
Qed.

End Kinds.

Lemma post_resolveCustomField fuel c visited :
  post (resolveCustomField fuel c pool visited options) resolvedSchema.
Proof.
  assert (kindSchema (JObj [("type", JStr "object")])) as Hcycle by literal_schema.
  destruct fuel as [|fuel]; cbn [resolveCustomField].
  - eapply (post_bind _ _ (fun _ => True)); [done|]. intros [] _.
    + apply post_ret. by intros s [= <-].
    + destruct (pool !! c); [done | apply post_ret; done].
  - eapply (post_bind _ _ (fun _ => True)); [done|]. intros [] _.
    + apply post_ret. by intros s [= <-].
    + destruct (pool !! c) as [def|]; [|apply post_ret; done].
      eapply (post_bind _ _ (fun _ => True)); [done|]. intros nextVisited _.
      eapply (post_bind _ _ (fun _ => True)); [done|]. intros _ _.
      eapply (post_bind _ _ (fun _ => True)); [done|].
      intros [properties required] _. cbn [fst snd].
      apply post_ret. intros s [= <-].
      destruct required as [|r required]; cbn [length Nat.ltb Nat.leb];
        literal_schema.
Qed.

End Shapes.

(** ** The kinds *)

(** X1: a field of a kind other than repeater and custom is converted
    without the resolver, the pool, the path or the options being
    consulted and without the store being touched: its schema is the same
    in every context, at every budget, and is a function of the kind
    alone, not of the field's identifier, name or flags. *)
Theorem plain_kinds_need_no_context field :
  isComposite (kind field) = false ->
  exists schema,
    forall other resolve pool visited options (h : Store),
      kind other = kind field ->
      convertFieldByKind resolve other pool visited options h = Done (schema, h).
Proof.
  intros Hplain.
  destruct (kind field) as [| | |[] items ?|lo hi| |initial| | | |cs|c|] eqn:Hkind;
    try discriminate;
    eexists; intros other resolve pool visited options h Hother;
    unfold convertFieldByKind; rewrite Hother; reflexivity.
Qed.

Lemma plain_kinds_need_no_context_witness :
  exists schema,
    forall other resolve pool visited options (h : Store),
      kind other = date (Some true) ->
      convertFieldByKind resolve other pool visited options h = Done (schema, h).
Proof.
  apply (plain_kinds_need_no_context (sampleField "publishedAt" None (date (Some true)))).
  reflexivity.
Defined.

(** X2: the schema of a number field has the keys [type], then [minimum]
    when the field gives a lower bound, then [maximum] when it gives an
    upper bound; a bound the field leaves out leaves no key, and a bound it
    gives is copied as it is. *)
Theorem number_bounds_copied_or_omitted resolve pool visited options
    (h : Store) field lo hi :
  kind field = numberKind lo hi ->
  exists out,
    convertFieldByKind resolve field pool visited options h = Done (JObj out, h) /\
    keys out = ["type"] ++ match lo with Some _ => ["minimum"] | None => [] end
                 ++ match hi with Some _ => ["maximum"] | None => [] end /\
    getProp "type" out = Some (JStr "number") /\
    getProp "minimum" out = JNum <$> lo /\
    getProp "maximum" out = JNum <$> hi.
Proof.
  intros Hkind. unfold convertFieldByKind. rewrite Hkind.
  destruct lo, hi; eexists; (split; [reflexivity|]); split_and!; reflexivity.
Qed.

Lemma number_bounds_copied_or_omitted_witness :
  exists out,
    convertFieldByKind (resolveCustomField 0)
      (sampleField "price" None (numberKind None (Some 100%Z))) ∅ 0 None []
    = Done (JObj out, []) /\
    keys out = ["type"; "maximum"] /\
    getProp "minimum" out = None /\
    getProp "maximum" out = Some (JNum 100%Z).
Proof.
  destruct (number_bounds_copied_or_omitted (resolveCustomField 0) ∅ 0 None []
              (sampleField "price" None (numberKind None (Some 100%Z)))
              None (Some 100%Z) eq_refl)
    as (out & E & Hkeys & _ & Hmin & Hmax).
  exists out. split_and!; [exact E | exact Hkeys | exact Hmin | exact Hmax].
Defined.

(** X3: the schema of a boolean field has the key [default] exactly when
    the field gives an initial value, which is copied, [false] as well as
    [true]. *)
Theorem boolean_default_copied_or_omitted resolve pool visited options
    (h : Store) field initial :
  kind field = boolean initial ->
  exists out,
    convertFieldByKind resolve field pool visited options h = Done (JObj out, h) /\
    keys out = ["type"] ++ match initial with Some _ => ["default"] | None => [] end /\
    getProp "type" out = Some (JStr "boolean") /\
    getProp "default" out = JBool <$> initial.
Proof.
  intros Hkind. unfold convertFieldByKind. rewrite Hkind.
  destruct initial; eexists; (split; [reflexivity|]); split_and!; reflexivity.
Qed.

Lemma boolean_default_copied_or_omitted_witness :
  exists out,
    convertFieldByKind (resolveCustomField 0)
      (sampleField "draft" None (boolean (Some false))) ∅ 0 None []
    = Done (JObj out, []) /\
    getProp "default" out = Some (JBool false).
Proof.
  destruct (boolean_default_copied_or_omitted (resolveCustomField 0) ∅ 0 None []
              (sampleField "draft" None (boolean (Some false))) (Some false) eq_refl)
    as (out & E & _ & _ & Hdefault).
  exists out. split; [exact E | exact Hdefault].
Defined.

(** ** The extension option *)

(** X4: the schema of every kind is an object, and [convertField] returns
    it as it is unless the extension option is truthy; with the option it
    returns the same properties, in the same order, followed by the three
    provenance properties, which hold the field's identifier, name and
    kind. Nothing of the schema of the kind is changed or lost. *)
Theorem extensions_are_appended fuel pool options field visited
    (h : Store) (V : gset string) :
  h !! visited = Some V -> unvisited pool V <= fuel ->
  exists base h',
    convertFieldByKind (resolveCustomField fuel) field pool visited options h
    = Done (JObj base, h') /\
    convertField (resolveCustomField fuel) field pool visited options h
    = Done (JObj (if truthyBool (options ≫= includeExtensions)
                  then base ++ provenance field else base), h').
Proof.
  intros Hv Hfuel.
  destruct (convertFieldByKind_yields pool options (resolveCustomField fuel) V field)
    as [b Hb]; [intros c; by apply resolve_total|].
  destruct (Hb h visited Hv) as (ext & E & _).
  destruct (post_convertFieldByKind pool options (resolveCustomField fuel) visited
              (fun c => post_resolveCustomField pool options fuel c visited)
              field h b (h ++ ext) E) as (base & -> & Hnd & Hkeys).
  exists base, (h ++ ext). split; [exact E|].
  unfold convertField. rewrite (bind_Done _ _ _ _ _ E).
  destruct (truthyBool _); [|done].
  cbn [ownProps]. unfold ret. do 3 f_equal.
  assert (Forall (fun k => arrayIndex k = None) (keys base)) as Hnames.
  { eapply Forall_impl; [exact Hkeys|]. intros k Hk. revert k Hk.
    apply (Forall_forall (fun k => arrayIndex k = None) schemaKeys).
    cbn. decide_it. }
  rewrite (spread_plain [] base) by done. cbn [app].
  apply spread_plain; [cbn; decide_it|].
  apply NoDup_app. split_and!; [done| |cbn; decide_it].
  intros k Hk. eapply Forall_forall in Hkeys; [|exact Hk].
  clear Hk. revert k Hkeys.
  apply (Forall_forall (fun k => k ∉ (provenance field).*1) schemaKeys).
  cbn. decide_it.
Qed.

Lemma extensions_are_appended_witness :
  exists h',
    convertField (resolveCustomField 1) (sampleField "node" None (custom "cf-a"))
      (buildCustomFieldMap (Some [cfA])) 0
      (Some {| title := None; includeExtensions := Some true |}) [∅]
    = Done (JObj [("type", JStr "object");
                  ("properties",
                   JObj [("child",
                          JObj [("type", JStr "object");
                                ("x-microcms-field-id", JStr "child");
                                ("x-microcms-field-name", JStr "child");
                                ("x-microcms-kind", JStr "custom")])]);
                  ("x-microcms-field-id", JStr "node");
                  ("x-microcms-field-name", JStr "node");
                  ("x-microcms-kind", JStr "custom")], h').
Proof.
  destruct (extensions_are_appended 1 (buildCustomFieldMap (Some [cfA]))
              (Some {| title := None; includeExtensions := Some true |})
              (sampleField "node" None (custom "cf-a")) 0 [∅] ∅)
    as (base & h' & Ebase & E); [reflexivity | vm_compute; lia |].
  exists h'. rewrite E. vm_compute in Ebase. injection Ebase as <- _. reflexivity.
Defined.

(** ** The options *)

Lemma bind_ext {A B} (m1 m2 : M A) (k1 k2 : A -> M B) (h : Store) :
  m1 h = m2 h -> (forall a h', k1 a h' = k2 a h') -> bind m1 k1 h = bind m2 k2 h.
Proof.
  intros Hm Hk. unfold bind. rewrite Hm. destruct (m2 h) as [[a h']|]; [apply Hk | done].
Qed.

Lemma forOf_ext {A S} (xs : list A) (body1 body2 : A -> S -> M S) :
  (forall x s h, body1 x s h = body2 x s h) ->
  forall s h, forOf xs body1 s h = forOf xs body2 s h.
Proof.
  intros Hbody. induction xs as [|x xs IH]; intros s h; cbn [forOf]; [done|].
  apply bind_ext; [apply Hbody | apply IH].
Qed.

Section OptionsOfFields.

Variables options1 options2 : option ToJsonSchemaOptions.
Hypothesis same_extensions :
  truthyBool (options1 ≫= includeExtensions) = truthyBool (options2 ≫= includeExtensions).

Section Kinds.

Variables resolve1 resolve2 :
  string -> gmap string MicroCMSCustomFieldDefinition -> SetRef ->
  option ToJsonSchemaOptions -> M (option JSON).
Hypothesis same_resolver :
  forall c pool visited (h : Store),
    resolve1 c pool visited options1 h = resolve2 c pool visited options2 h.

Lemma convertFieldByKind_options field pool visited (h : Store) :
  convertFieldByKind resolve1 field pool visited options1 h
  = convertFieldByKind resolve2 field pool visited options2 h.
Proof.
  unfold convertFieldByKind.
  destruct (kind field) as [| | |[] ? ?| | | | | | |cs|c|]; try reflexivity.
  - unfold convertRepeater. apply bind_ext; [|done].
    apply forOf_ext. intros c schemas h0. apply bind_ext; [apply same_resolver | done].
  - unfold convertCustom. apply bind_ext; [apply same_resolver | done].
Qed.

Lemma convertField_options field pool visited (h : Store) :
  convertField resolve1 field pool visited options1 h
  = convertField resolve2 field pool visited options2 h.
Proof.
  unfold convertField. apply bind_ext; [apply convertFieldByKind_options|].
  intros base h'. by rewrite same_extensions.
Qed.

End Kinds.

Lemma resolveCustomField_options fuel : forall c pool visited (h : Store),
  resolveCustomField fuel c pool visited options1 h
  = resolveCustomField fuel c pool visited options2 h.
Proof.
  induction fuel as [|fuel IH]; intros c pool visited h; cbn [resolveCustomField].
  - reflexivity.
  - apply bind_ext; [done|]. intros [] h1; [done|].
    destruct (pool !! c) as [def|]; [|done].
    apply bind_ext; [done|]. intros nextVisited h2.
    apply bind_ext; [done|]. intros _ h3.
    apply bind_ext; [|done].
    apply forOf_ext. intros f acc h4. apply bind_ext; [|done].
    by apply convertField_options.
Qed.

End OptionsOfFields.

(** X6: of the options, only the truthiness of [includeExtensions] reaches
    the conversion of a field: [false] and an absent option are one, and
    the title plays no part, at any depth. Two calls of the entry point
    whose options agree on that truthiness leave the same store and return
    envelopes that differ in the [title] property at most. *)
Theorem only_the_extension_flag_reaches_fields fuel options1 options2 (h : Store) :
  truthyBool (options1 ≫= includeExtensions)
  = truthyBool (options2 ≫= includeExtensions) ->
  (forall field pool visited,
     convertField (resolveCustomField fuel) field pool visited options1 h
     = convertField (resolveCustomField fuel) field pool visited options2 h) /\
  (forall schema out1 h1,
     toJsonSchema fuel schema options1 h = Done (out1, h1) ->
     exists out2,
       toJsonSchema fuel schema options2 h = Done (out2, h1) /\
       forall k, k <> "title" ->
         getProp k (ownProps out1) = getProp k (ownProps out2)).
Proof.
  intros Hext. split.
  - intros field pool visited. apply convertField_options; [done|].
    intros c p v h0. by apply resolveCustomField_options.
  - intros schema out1 h1. unfold toJsonSchema, bind.
    rewrite (forOf_ext _ _
               (fun field acc =>
                  let* visited := newSet None in
                  let* converted :=
                    convertField (resolveCustomField fuel) field
                      (buildCustomFieldMap (customFields schema)) visited options2 in
                  ret (setProp (fieldId field) converted acc.1,
                       if truthyBool (required field)
                       then acc.2 ++ [fieldId field] else acc.2))).
    + destruct (forOf _ _ _ h) as [[acc h']|]; [|done].
      unfold ret. intros [= <- <-]. eexists. split; [reflexivity|].
      intros k Hk. cbn [ownProps]. unfold withRequired.
      assert (forall o1 o2 : Obj,
                getProp k o1 = getProp k o2 ->
                getProp k (if (0 <? length acc.2)%nat
                           then setProp "required" (JArr (JStr <$> acc.2)) o1 else o1)
                = getProp k (if (0 <? length acc.2)%nat
                             then setProp "required" (JArr (JStr <$> acc.2)) o2 else o2))
        as Hrequired.
      { intros o1 o2 Ho. destruct (0 <? length acc.2)%nat; [|done].
        rewrite !getProp_setProp by done. by case_decide. }
      apply Hrequired.
      destruct (options1 ≫= title) as [t1|], (options2 ≫= title) as [t2|];
        repeat match goal with |- context [truthyString ?t] => destruct (truthyString t) end;
        rewrite ?getProp_setProp_ne by done; reflexivity.
    + intros f acc h0. apply (bind_ext (A := SetRef)); [done|]. intros visited h2.
      apply (bind_ext (A := JSON)); [|done]. apply convertField_options; [done|].
      intros c p v h3. by apply resolveCustomField_options.
Qed.

Lemma only_the_extension_flag_reaches_fields_witness :
  convertField (resolveCustomField 2) (sampleField "first" None (custom "cf-b"))
    (buildCustomFieldMap (Some [cfB; cfC])) 0 None [∅]
  = convertField (resolveCustomField 2) (sampleField "first" None (custom "cf-b"))
      (buildCustomFieldMap (Some [cfB; cfC])) 0
      (Some {| title := Some "posts"; includeExtensions := Some false |}) [∅].
Proof.
  apply (only_the_extension_flag_reaches_fields 2 None
           (Some {| title := Some "posts"; includeExtensions := Some false |}) [∅]).
  reflexivity.
Defined.

(** ** The entry point *)

(** X7: the envelope has the keys [$schema], [type] and [properties], then
    [title] when the title option is truthy, then [required] when a field
    sets the flag. [$schema] is the draft-07 marker and [type] is object.
    [properties] has one key for every field identifier other than
    [__proto__], under which an assignment creates no key: the identifiers
    that are array indices first, in ascending numeric order, then the
    others in the order in which they first occur. Under an identifier
    other than [__proto__] is the schema of the last field that bears it,
    converted on an empty path. When the identifiers are plain names that
    differ from one another, [properties] maps every field's identifier to
    the field's own schema, in the order of the fields. *)
Theorem envelope_of_the_entry_point fuel schema options (h : Store) :
  let pool := buildCustomFieldMap (customFields schema) in
  size pool <= fuel ->
  exists (converted : list JSON) (properties out : Obj) (h' : Store),
    Forall2 (fun f s =>
      forall budget, size pool <= budget ->
        yields pool ∅
          (fun v => convertField (resolveCustomField budget) f pool v options) s)
      (apiFields schema) converted /\
    toJsonSchema fuel schema options h = Done (JObj out, h') /\
    keys out
    = ["$schema"; "type"; "properties"]
        ++ match options ≫= title with
           | Some t => if decide (t = EmptyString) then [] else ["title"]
           | None => []
           end
        ++ match requiredIds (apiFields schema) with
           | [] => []
           | _ => ["required"]
           end /\
    getProp "$schema" out = Some (JStr "http://json-schema.org/draft-07/schema#") /\
    getProp "type" out = Some (JStr "object") /\
    getProp "properties" out = Some (JObj properties) /\
    ownKeyOrder (fieldId <$> apiFields schema) (keys properties) /\
    (forall k, k ∈ keys properties
               <-> k ∈ fieldId <$> apiFields schema /\ k <> "__proto__") /\
    (forall i f s,
       apiFields schema !! i = Some f -> converted !! i = Some s ->
       fieldId f <> "__proto__" ->
       (forall j f', i < j -> apiFields schema !! j = Some f' ->
                     fieldId f' <> fieldId f) ->
       getProp (fieldId f) properties = Some s) /\
    (Forall plainName (fieldId <$> apiFields schema) ->
     keys properties = firstOccurrences (fieldId <$> apiFields schema) /\
     (NoDup (fieldId <$> apiFields schema) ->
      properties = zip (fieldId <$> apiFields schema) converted)).
Proof.
  intros pool Hfuel.
  destruct (toJsonSchema_run options fuel schema Hfuel) as (ss & Hss & Hrun).
  destruct (Hrun h) as (ext & E & _). fold pool in Hss.
  pose proof (Forall2_length _ _ _ Hss) as Hlen.
  destruct (zip_fields_schemas _ _ Hss) as [Hfst Hzip].
  unfold envelope in E.
  rewrite assignField_required, assignField_properties, Hfst, Hzip in E.
  cbn [fst snd app] in E.
  pose proof (keys_assembled (fieldId <$> apiFields schema) ss
                ltac:(by rewrite length_fmap)) as Horder.
  eexists ss, _, _, _. split_and!; [ | exact E | | | | | exact Horder | | |].
  - eapply Forall2_impl; [exact Hss|]. intros f s Hs budget Hbudget.
    pose proof (unvisited_le_size pool ∅).
    apply (convertField_budget pool options fuel budget); [lia | lia | done].
  - unfold withRequired.
    destruct (options ≫= title) as [t|];
      [unfold truthyString; destruct (decide (t = EmptyString))|];
      destruct (requiredIds (apiFields schema)); reflexivity.
  - rewrite getProp_withRequired_other by done.
    destruct (options ≫= title) as [t|]; [destruct (truthyString t)|]; reflexivity.
  - rewrite getProp_withRequired_other by done.
    destruct (options ≫= title) as [t|]; [destruct (truthyString t)|]; reflexivity.
  - rewrite getProp_withRequired_other by done.
    destruct (options ≫= title) as [t|]; [destruct (truthyString t)|]; reflexivity.
  - intros k. apply (ownKeyOrder_elem _ _ k Horder).
  - intros i f s Hf Hs Hproto Hlast.
    apply (getProp_assignAll_lookup _ _ _ i).
    + done.
    + by rewrite length_fmap.
    + by rewrite list_lookup_fmap, Hf.
    + done.
    + intros j k' Hij Hk'. rewrite list_lookup_fmap in Hk'.
      destruct (apiFields schema !! j) as [f'|] eqn:Hf'; [|done].
      injection Hk' as <-. by eapply Hlast.
  - intros Hplain. split; [by apply ownKeyOrder_plain|].
    intros Hnd. apply assembled_plain; [by rewrite length_fmap | done | done].
Qed.

Lemma envelope_of_the_entry_point_witness :
  exists (converted : list JSON) (properties out : Obj) (h' : Store),
    toJsonSchema 2 mutualSchema
      (Some {| title := Some "posts"; includeExtensions := None |}) []
    = Done (JObj out, h') /\
    keys out = ["$schema"; "type"; "properties"; "title"; "required"] /\
    getProp "properties" out = Some (JObj properties) /\
    properties = zip ["first"; "blocks"] converted.
Proof.
  destruct (envelope_of_the_entry_point 2 mutualSchema
              (Some {| title := Some "posts"; includeExtensions := None |}) [])
    as (converted & properties & out & h' & _ & E & Hkeys & _ & _ & Hprops & _ & _ & _
        & Hplain);
    [vm_compute; lia|].
  exists converted, properties, out, h'.
  split_and!; [exact E | exact Hkeys | exact Hprops |].
  apply Hplain; cbn; decide_it.
Defined.

(** ** References *)

(** X8: in the resolution of a definition, a custom field that refers to
    the definition itself, or to any definition on the path, is an untyped
    object schema, with the provenance properties when the extension option
    asks for them: the reference is not followed, whatever the pool holds
    for it. The schema is found in [properties] under the field's
    identifier when that is not [__proto__], under which an assignment
    creates no key, and no later field bears the identifier. This is what
    the repository's test of circular references observes. *)
Theorem reference_to_the_path_is_untyped fuel pool options createdAt def
    visited (h : Store) (V : gset string) i field target :
  h !! visited = Some V -> createdAt ∉ V -> pool !! createdAt = Some def ->
  unvisited pool V <= S fuel ->
  fields def !! i = Some field -> kind field = custom target ->
  target ∈ ({[createdAt]} ∪ V : gset string) ->
  fieldId field <> "__proto__" ->
  (forall j f', i < j -> fields def !! j = Some f' -> fieldId f' <> fieldId field) ->
  exists (properties out : Obj) (h' : Store),
    resolveCustomField (S fuel) createdAt pool visited options h
    = Done (Some (JObj out), h') /\
    getProp "properties" out = Some (JObj properties) /\
    getProp (fieldId field) properties
    = Some (JObj (if truthyBool (options ≫= includeExtensions)
                  then ("type", JStr "object") :: provenance field
                  else [("type", JStr "object")])).
Proof.
  intros Hv Hc Hdef Hfuel Hfield Hkind Htarget Hproto Hlast.
  destruct (resolve_enough_enter pool options (S fuel) createdAt def h visited V
              Hv Hc Hdef Hfuel) as (fuel' & ss & ext & [= <-] & Hss & E & _).
  pose proof (Forall2_length _ _ _ Hss) as Hlen.
  destruct (zip_fields_schemas _ _ Hss) as [Hfst Hzip].
  destruct (Forall2_lookup_l _ _ _ _ _ Hss Hfield) as (s & Hs & Hyields).
  assert (yields pool ({[createdAt]} ∪ V)
            (fun v => convertField (resolveCustomField fuel) field pool v options)
            (withExtensions options field (JObj [("type", JStr "object")]))) as Hcycle.
  { apply convertField_yields. unfold convertFieldByKind. rewrite Hkind.
    apply (convertCustom_yields pool options _ _ target (Some (JObj [("type", JStr "object")]))).
    intros h0 v Hv0. exists []. rewrite app_nil_r.
    split; [by eapply resolve_cycle | constructor]. }
  rewrite (yields_functional _ _ _ _ _ Hyields Hcycle) in Hs.
  unfold objectSchema in E.
  rewrite assignField_required, assignField_properties, Hfst, Hzip in E.
  cbn [fst snd app] in E.
  eexists _, _, _. split_and!; [exact E | by rewrite getProp_withRequired_other |].
  replace (JObj (if truthyBool (options ≫= includeExtensions)
                 then ("type", JStr "object") :: provenance field
                 else [("type", JStr "object")]))
    with (withExtensions options field (JObj [("type", JStr "object")]))
    by (unfold withExtensions; destruct (truthyBool _); reflexivity).
  apply (getProp_assignAll_lookup _ _ _ i).
  - done.
  - by rewrite length_fmap.
  - by rewrite list_lookup_fmap, Hfield.
  - exact Hs.
  - intros j k' Hij Hk'. rewrite list_lookup_fmap in Hk'.
    destruct (fields def !! j) as [f'|] eqn:Hf'; [|done].
    injection Hk' as <-. by eapply Hlast.
Qed.

Lemma reference_to_the_path_is_untyped_witness :
  exists (properties out : Obj) (h' : Store),
    resolveCustomField 1 "cf-a" (buildCustomFieldMap (Some [cfA])) 0 None [∅]
    = Done (Some (JObj out), h') /\
    getProp "properties" out = Some (JObj properties) /\
    getProp "child" properties = Some (JObj [("type", JStr "object")]).
Proof.
  apply (reference_to_the_path_is_untyped 0 (buildCustomFieldMap (Some [cfA])) None
           "cf-a" cfA 0 [∅] ∅ 0 (sampleField "child" None (custom "cf-a")) "cf-a").
  - reflexivity.
  - apply not_elem_of_empty.
  - reflexivity.
  - vm_compute. lia.
  - reflexivity.
  - reflexivity.
  - apply elem_of_union_l. by apply elem_of_singleton.
  - discriminate.
  - intros [|j] f' Hj Hf'; [lia | discriminate].
Defined.

(** X9: a repeater that lists one identifier and a custom field that names
    the same identifier go through the same resolution. When the
    identifier resolves, be it to a definition or as a cycle, the repeater
    is the array of the custom field's schema; when the pool does not hold
    it, the custom field falls back to an untyped object and the repeater
    to an array without [items]. *)
Theorem single_repeater_wraps_custom fuel pool options createdAt visited
    (h : Store) (V : gset string) :
  h !! visited = Some V -> unvisited pool V <= fuel ->
  exists (single out : JSON) (h1 h2 : Store),
    convertCustom (resolveCustomField fuel) createdAt pool visited options h
    = Done (single, h1) /\
    convertRepeater (resolveCustomField fuel) [createdAt] pool visited options h
    = Done (out, h2) /\
    (createdAt ∈ V \/ is_Some (pool !! createdAt) ->
     out = JObj [("type", JStr "array"); ("items", single)]) /\
    (createdAt ∉ V -> pool !! createdAt = None ->
     single = JObj [("type", JStr "object")] /\ out = JObj [("type", JStr "array")]).
Proof.
  intros Hv Hfuel.
  destruct (resolve_total pool options fuel V createdAt Hfuel) as [r Hr].
  destruct (convertCustom_yields pool options _ V createdAt r Hr h visited Hv)
    as (e1 & E1 & _).
  destruct (convertRepeater_yields pool options (resolveCustomField fuel) V
              [createdAt] [r]) with (h := h) (visited := visited)
    as (e2 & E2 & _); [by repeat constructor | done |].
  destruct (Hr h visited Hv) as (e0 & E0 & _).
  eexists _, _, _, _. split_and!; [exact E1 | exact E2 | |].
  - intros Hresolves. destruct r as [s|]; [reflexivity|]. exfalso.
    destruct (decide (createdAt ∈ V)) as [Hin|Hout].
    + rewrite (resolve_cycle pool options fuel createdAt h visited V Hv Hin) in E0.
      discriminate.
    + destruct Hresolves as [?|[def Hdef]]; [done|].
      destruct (resolve_enough_enter pool options fuel createdAt def h visited V
                  Hv Hout Hdef Hfuel) as (? & ? & ? & _ & _ & E & _).
      rewrite E in E0. discriminate.
  - intros Hout Hnone.
    rewrite (resolve_absent pool options fuel createdAt h visited V Hv Hout Hnone) in E0.
    injection E0 as <- _. split; reflexivity.
Qed.

Lemma single_repeater_wraps_custom_witness :
  exists (single out : JSON) (h1 h2 : Store),
    convertCustom (resolveCustomField 2) "cf-b" (buildCustomFieldMap (Some [cfB; cfC]))
      0 None [∅]
    = Done (single, h1) /\
    convertRepeater (resolveCustomField 2) ["cf-b"] (buildCustomFieldMap (Some [cfB; cfC]))
      0 None [∅]
    = Done (out, h2) /\
    out = JObj [("type", JStr "array"); ("items", single)].
Proof.
  destruct (single_repeater_wraps_custom 2 (buildCustomFieldMap (Some [cfB; cfC])) None
              "cf-b" 0 [∅] ∅)
    as (single & out & h1 & h2 & E1 & E2 & Hresolves & _);
    [reflexivity | vm_compute; lia |].
  exists single, out, h1, h2. split_and!; [exact E1 | exact E2 |].
  apply Hresolves. right. by eexists.
Defined.

(** ** The required list *)

Lemma requiredIds_within fs :
  Forall (fun id => id ∈ fieldId <$> fs) (requiredIds fs) /\
  (NoDup (fieldId <$> fs) -> NoDup (requiredIds fs)).
Proof.
  unfold requiredIds. split.
  - apply Forall_forall. intros id Hid.
    apply list_elem_of_fmap in Hid as (f & -> & Hf).
    apply list_elem_of_filter in Hf as [_ Hf]. by apply list_elem_of_fmap_2.
  - intros Hnd. eapply sublist_NoDup; [exact Hnd|].
    apply fmap_sublist, sublist_filter.
Qed.

(** X10: the [required] list of an assembled object names the fields that
    set the flag, in their order, at the top level and in the resolution of
    a definition alike. Every identifier it lists is a key of [properties]
    but for [__proto__], which the list can name and [properties] never
    has as a key. The list repeats an identifier that several required
    fields bear; it is without repetition when the identifiers of the
    fields differ from one another. *)
Theorem required_names_properties fuel options :
  (forall schema (h : Store),
     size (buildCustomFieldMap (customFields schema)) <= fuel ->
     exists (ids : list string) (properties out : Obj) (h' : Store),
       ids = requiredIds (apiFields schema) /\
       toJsonSchema fuel schema options h = Done (JObj out, h') /\
       getProp "properties" out = Some (JObj properties) /\
       getProp "required" out
       = match ids with [] => None | _ => Some (JArr (JStr <$> ids)) end /\
       Forall (fun id => is_Some (getProp id properties) <-> id <> "__proto__") ids /\
       (NoDup (fieldId <$> apiFields schema) -> NoDup ids)) /\
  (forall pool createdAt def visited (h : Store) (V : gset string),
     h !! visited = Some V -> createdAt ∉ V -> pool !! createdAt = Some def ->
     unvisited pool V <= fuel ->
     exists (ids : list string) (properties out : Obj) (h' : Store),
       ids = requiredIds (fields def) /\
       resolveCustomField fuel createdAt pool visited options h
       = Done (Some (JObj out), h') /\
       getProp "properties" out = Some (JObj properties) /\
       getProp "required" out
       = match ids with [] => None | _ => Some (JArr (JStr <$> ids)) end /\
       Forall (fun id => is_Some (getProp id properties) <-> id <> "__proto__") ids /\
       (NoDup (fieldId <$> fields def) -> NoDup ids)).
Proof.
  split.
  - intros schema h Hfuel.
    destruct (toJsonSchema_run options fuel schema Hfuel) as (ss & Hss & Hrun).
    destruct (Hrun h) as (ext & E & _).
    pose proof (Forall2_length _ _ _ Hss) as Hlen.
    destruct (zip_fields_schemas _ _ Hss) as [Hfst Hzip].
    destruct (requiredIds_within (apiFields schema)) as [Hwithin Hnodup].
    unfold envelope in E.
    rewrite assignField_required, assignField_properties, Hfst, Hzip in E.
    cbn [fst snd app] in E.
    eexists (requiredIds (apiFields schema)), _, _, _.
    split_and!; [done | exact E | | | | exact Hnodup].
    + rewrite getProp_withRequired_other by done.
      destruct (options ≫= title) as [t|]; [destruct (truthyString t)|]; reflexivity.
    + rewrite getProp_withRequired; [by destruct (requiredIds _)|].
      destruct (options ≫= title) as [t|]; [destruct (truthyString t)|]; reflexivity.
    + eapply Forall_impl; [exact Hwithin|]. intros id Hid.
      apply required_among_properties; [by rewrite length_fmap | done].
  - intros pool createdAt def visited h V Hv Hc Hdef Hfuel.
    destruct (resolve_enough_enter pool options fuel createdAt def h visited V
                Hv Hc Hdef Hfuel) as (fuel' & ss & ext & -> & Hss & E & _).
    pose proof (Forall2_length _ _ _ Hss) as Hlen.
    destruct (zip_fields_schemas _ _ Hss) as [Hfst Hzip].
    destruct (requiredIds_within (fields def)) as [Hwithin Hnodup].
    unfold objectSchema in E.
    rewrite assignField_required, assignField_properties, Hfst, Hzip in E.
    cbn [fst snd app] in E.
    eexists (requiredIds (fields def)), _, _, _.
    split_and!; [done | exact E | | | | exact Hnodup].
    + by rewrite getProp_withRequired_other.
    + rewrite getProp_withRequired by done. by destruct (requiredIds _).
    + eapply Forall_impl; [exact Hwithin|]. intros id Hid.
      apply required_among_properties; [by rewrite length_fmap | done].
Qed.

Lemma required_names_properties_witness :
  (exists (ids : list string) (properties out : Obj) (h' : Store),
     toJsonSchema 2 mutualSchema None [] = Done (JObj out, h') /\
     getProp "properties" out = Some (JObj properties) /\
     getProp "required" out
     = match ids with [] => None | _ => Some (JArr (JStr <$> ids)) end /\
     Forall (fun id => is_Some (getProp id properties) <-> id <> "__proto__") ids /\
     NoDup ids) /\
  (exists (properties out : Obj) (h' : Store),
     resolveCustomField 1 "cf-proto" (buildCustomFieldMap (Some [cfProto])) 0 None [∅]
     = Done (Some (JObj out), h') /\
     getProp "properties" out = Some (JObj properties) /\
     getProp "required" out = Some (JArr [JStr "__proto__"]) /\
     getProp "__proto__" properties = None).
Proof.
  destruct (required_names_properties 2 None) as [Htop _].
  destruct (required_names_properties 1 None) as [_ Hdef]. split.
  - destruct (Htop mutualSchema [])
      as (ids & properties & out & h' & _ & E & Hp & Hr & Hin & Hnd);
      [vm_compute; lia|].
    exists ids, properties, out, h'.
    split_and!; [exact E | exact Hp | exact Hr | exact Hin |].
    apply Hnd. cbn. decide_it.
  - destruct (Hdef (buildCustomFieldMap (Some [cfProto])) "cf-proto" cfProto 0 [∅] ∅)
      as (ids & properties & out & h' & -> & E & Hp & Hr & Hin & _);
      [reflexivity | apply not_elem_of_empty | reflexivity | vm_compute; lia |].
    exists properties, out, h'.
    split_and!; [exact E | exact Hp | exact Hr |].
    apply Forall_inv in Hin. apply eq_None_not_Some. rewrite Hin. by intros ?.
Defined.

(** ** The pool and the budget *)

Lemma foldl_insert_dom (m : gmap string MicroCMSCustomFieldDefinition) defs :
  dom (foldl (fun map def => <[createdAt def := def]> map) m defs)
  = dom m ∪ list_to_set (createdAt <$> defs).
Proof.
  revert m. induction defs as [|d defs IH]; intros m; cbn [foldl].
  - rewrite fmap_nil. cbn. by rewrite union_empty_r_L.
  - rewrite IH, dom_insert_L, fmap_cons. cbn [list_to_set]. set_solver.
Qed.

Lemma foldl_insert_size (m : gmap string MicroCMSCustomFieldDefinition) defs :
  size (foldl (fun map def => <[createdAt def := def]> map) m defs)
  <= size m + length defs.
Proof.
  revert m. induction defs as [|d defs IH]; intros m; cbn [foldl length]; [lia|].
  etransitivity; [apply IH|]. rewrite map_size_insert.
  destruct (m !! createdAt d); cbn; lia.
Qed.

(** X11: the pool holds an identifier exactly when a listed definition
    bears it; without a list of definitions it is empty, as it is for the
    empty list. It is never larger than the list, and as large when the
    listed identifiers differ from one another. So the number of listed
    definitions is a budget with which the entry point returns, for every
    list of fields and all options. *)
Theorem pool_holds_the_listed_identifiers customFields :
  let pool := buildCustomFieldMap customFields in
  let listed := default [] customFields in
  (forall k, is_Some (pool !! k) <-> k ∈ createdAt <$> listed) /\
  size pool <= length listed /\
  (NoDup (createdAt <$> listed) -> size pool = length listed) /\
  (forall apiFields options (h : Store),
     exists out h',
       toJsonSchema (length listed)
         {| apiFields := apiFields; customFields := customFields |} options h
       = Done (out, h')).
Proof.
  intros pool listed.
  assert (dom pool = list_to_set (createdAt <$> listed)) as Hdom.
  { unfold pool, listed, buildCustomFieldMap. destruct customFields as [defs|]; cbn.
    - rewrite foldl_insert_dom, dom_empty_L. by rewrite union_empty_l_L.
    - by rewrite dom_empty_L. }
  assert (size pool <= length listed) as Hsize.
  { unfold pool, listed, buildCustomFieldMap. destruct customFields as [defs|]; cbn.
    - pose proof (foldl_insert_size ∅ defs) as Hle.
      rewrite map_size_empty in Hle. exact Hle.
    - by rewrite map_size_empty. }
  split_and!.
  - intros k. rewrite <- elem_of_dom, Hdom. apply elem_of_list_to_set.
  - exact Hsize.
  - intros Hnd. rewrite <- (size_dom (D := gset string) pool), Hdom.
    rewrite size_list_to_set by done. by rewrite length_fmap.
  - intros apiFields options h.
    destruct (toJsonSchema_run options (length listed)
                {| apiFields := apiFields; customFields := customFields |} Hsize)
      as (ss & _ & Hrun).
    destruct (Hrun h) as (ext & E & _). eauto.
Qed.

Lemma pool_holds_the_listed_identifiers_witness :
  is_Some (buildCustomFieldMap (Some [cfB; cfC]) !! "cf-c") /\
  size (buildCustomFieldMap (Some [cfB; cfC])) = 2 /\
  size (buildCustomFieldMap (Some [cfOld; cfA; cfNew])) <= 3.
Proof.
  destruct (pool_holds_the_listed_identifiers (Some [cfB; cfC]))
    as (Hholds & _ & Hsize & _).
  destruct (pool_holds_the_listed_identifiers (Some [cfOld; cfA; cfNew]))
    as (_ & Hle & _).
  split_and!; [apply Hholds; cbn; decide_it | apply Hsize; cbn; decide_it | exact Hle].
Defined.

(** ** The bundle *)

Lemma last_occurrence (l : list string) k :
  k ∈ l ->
  exists i, l !! i = Some k /\ forall j k', i < j -> l !! j = Some k' -> k' <> k.
Proof.
  induction l as [|x l IH]; intros Hk; [by apply elem_of_nil in Hk|].
  destruct (decide (k ∈ l)) as [Hin|Hout].
  - destruct (IH Hin) as (i & Hi & Hlast). exists (S i). split; [done|].
    intros [|j] k' Hj Hk'; [lia|]. apply (Hlast j); [lia | done].
  - apply elem_of_cons in Hk as [->|?]; [|done]. exists 0. split; [done|].
    intros [|j] k' Hj Hk'; [lia|]. cbn in Hk'.
    intros ->. apply Hout. by eapply list_elem_of_lookup_2.
Qed.

(** X12: the record of a bundle has one key for every endpoint name other
    than [__proto__], under which an assignment creates no key: the names
    that are array indices first, in ascending numeric order, then the
    others in the order in which they first occur. Under a name other than
    [__proto__] is the schema of the last entry that bears it. Every value
    is an envelope: an object with the draft-07 marker and the object type,
    and with its own key as the title, unless the key is the empty string,
    when it has no title. A bundle without entries gives the empty
    record. *)
Theorem bundle_record_of_envelopes fuel bundle (h : Store) :
  Forall (fun e => size (buildCustomFieldMap (customFields (api e))) <= fuel)
    (apis bundle) ->
  exists (result : Obj) (h' : Store),
    bundleToJsonSchema fuel bundle h = Done (result, h') /\
    ownKeyOrder (endpoint <$> apis bundle) (keys result) /\
    (forall k, k ∈ keys result <-> k ∈ endpoint <$> apis bundle /\ k <> "__proto__") /\
    (Forall plainName (endpoint <$> apis bundle) ->
     keys result = firstOccurrences (endpoint <$> apis bundle)) /\
    (forall i e,
       apis bundle !! i = Some e -> endpoint e <> "__proto__" ->
       (forall j e', i < j -> apis bundle !! j = Some e' -> endpoint e' <> endpoint e) ->
       exists out,
         getProp (endpoint e) result = Some out /\
         forall h0 : Store,
           returned (toJsonSchema fuel (api e)
                       (Some {| title := Some (endpoint e); includeExtensions := None |})
                       h0)
           = Done out) /\
    (apis bundle = [] -> result = [] /\ h' = h) /\
    (forall k v, getProp k result = Some v ->
       exists out,
         v = JObj out /\
         getProp "$schema" out = Some (JStr "http://json-schema.org/draft-07/schema#") /\
         getProp "type" out = Some (JStr "object") /\
         getProp "title" out
         = if decide (k = EmptyString) then None else Some (JStr k)).
Proof.
  intros Hfuel.
  destruct (bundle_loop fuel (apis bundle) Hfuel) as (outs & Houts & Hloop).
  destruct (Hloop [] h) as (ext & E).
  pose proof (Forall2_length _ _ _ Houts) as Hlen.
  pose proof (keys_assembled (endpoint <$> apis bundle) outs
                ltac:(by rewrite length_fmap)) as Horder.
  assert (forall i e,
            apis bundle !! i = Some e -> endpoint e <> "__proto__" ->
            (forall j k', i < j -> (endpoint <$> apis bundle) !! j = Some k' ->
                          k' <> endpoint e) ->
            exists out,
              outs !! i = Some out /\
              getProp (endpoint e) (assignAll [] (zip (endpoint <$> apis bundle) outs))
              = Some out /\
              forall h0 : Store, exists e0,
                toJsonSchema fuel (api e)
                  (Some {| title := Some (endpoint e); includeExtensions := None |}) h0
                = Done (out, h0 ++ e0)) as Hlast.
  { intros i e He Hproto Hlater.
    destruct (Forall2_lookup_l _ _ _ _ _ Houts He) as (out & Hout & Hrun).
    exists out. split_and!; [done | | done].
    apply (getProp_assignAll_lookup _ _ _ i);
      [done | by rewrite length_fmap | by rewrite list_lookup_fmap, He | done | done]. }
  exists (assignAll [] (zip (endpoint <$> apis bundle) outs)), (h ++ ext).
  split_and!.
  - exact E.
  - exact Horder.
  - intros k. apply (ownKeyOrder_elem _ _ k Horder).
  - intros Hplain. by apply ownKeyOrder_plain.
  - intros i e He Hproto Hlater.
    destruct (Hlast i e He Hproto) as (out & _ & Hget & Hrun).
    + intros j k' Hij Hk'. rewrite list_lookup_fmap in Hk'.
      destruct (apis bundle !! j) as [e'|] eqn:He'; [|done].
      injection Hk' as <-. by eapply Hlater.
    + exists out. split; [done|]. intros h0. destruct (Hrun h0) as (e0 & E0).
      unfold returned. by rewrite E0.
  - intros Hnil. unfold bundleToJsonSchema in E. rewrite Hnil in *.
    cbn in E. injection E as Hh. split; [done|]. by rewrite <- Hh.
  - intros k v Hget.
    assert (k ∈ endpoint <$> apis bundle /\ k <> "__proto__") as [Hk Hproto].
    { apply (ownKeyOrder_elem _ _ k Horder). apply getProp_is_Some. eauto. }
    destruct (last_occurrence _ _ Hk) as (i & Hi & Hlater).
    rewrite list_lookup_fmap in Hi.
    destruct (apis bundle !! i) as [e|] eqn:He; [|done]. injection Hi as <-.
    destruct (Hlast i e He Hproto Hlater) as (out & _ & Hget' & Hrun).
    rewrite Hget' in Hget. injection Hget as <-.
    eapply Forall_lookup_1 in Hfuel; [|exact He].
    destruct (toJsonSchema_run
                (Some {| title := Some (endpoint e); includeExtensions := None |})
                fuel (api e) Hfuel) as (ss & _ & Hrun').
    destruct (Hrun []) as (e1 & E1). destruct (Hrun' []) as (e2 & E2 & _).
    rewrite E1 in E2. injection E2 as -> _.
    eexists. split; [reflexivity|].
    rewrite !getProp_withRequired_other by done. cbn [mbind option_bind title].
    unfold truthyString. destruct (decide (endpoint e = EmptyString)); done.
Qed.

Lemma bundle_record_of_envelopes_witness :
  exists (result : Obj) (h' : Store),
    bundleToJsonSchema 2 sampleBundle [] = Done (result, h') /\
    keys result = ["posts"; "tags"] /\
    (exists out,
       getProp "posts" result = Some out /\
       returned (toJsonSchema 2 mutualSchema
                   (Some {| title := Some "posts"; includeExtensions := None |}) [])
       = Done out) /\
    (forall k v, getProp k result = Some v ->
       exists out,
         v = JObj out /\
         getProp "title" out
         = if decide (k = EmptyString) then None else Some (JStr k)).
Proof.
  destruct (bundle_record_of_envelopes 2 sampleBundle [])
    as (result & h' & E & _ & _ & Hkeys & Hlast & _ & Hvalues);
    [repeat constructor; vm_compute; lia|].
  exists result, h'. split_and!; [exact E | | |].
  - apply Hkeys. cbn. unfold plainName. decide_it.
  - destruct (Hlast 2 {| endpoint := "posts"; api := mutualSchema |})
      as (out & Hget & Hrun); [reflexivity | discriminate | |].
    + intros [|[|[|j]]] e' Hj He'; try lia. discriminate.
    + exists out. split; [exact Hget | apply Hrun].
  - intros k v Hget. destruct (Hvalues k v Hget) as (out & -> & _ & _ & Htitle).
    by exists out.
Defined.

(** ** Empty inputs *)

(** X13: nothing to convert is no error. Without fields the entry point
    returns the envelope with empty [properties] and without [required];
    a repeater that lists nothing is the array without [items]; a
    definition without fields resolves to the object with empty
    [properties] and without [required]. The first two need no budget and
    leave the store as it is. *)
Theorem empty_inputs_convert fuel pool options visited (h : Store) :
  (forall customFields, exists out,
     toJsonSchema fuel {| apiFields := []; customFields := customFields |} options h
     = Done (JObj out, h) /\
     getProp "properties" out = Some (JObj []) /\
     getProp "required" out = None) /\
  convertRepeater (resolveCustomField fuel) [] pool visited options h
  = Done (JObj [("type", JStr "array")], h) /\
  (forall createdAt def (V : gset string),
     h !! visited = Some V -> createdAt ∉ V -> pool !! createdAt = Some def ->
     fields def = [] ->
     resolveCustomField (S fuel) createdAt pool visited options h
     = Done (Some (JObj [("type", JStr "object"); ("properties", JObj [])]),
             h ++ [{[createdAt]} ∪ V])).
Proof.
  split_and!.
  - intros customFields. unfold toJsonSchema, bind.
    cbn [apiFields forOf ret fst snd length Nat.ltb Nat.leb].
    destruct (options ≫= title) as [t|]; [destruct (truthyString t)|];
      eexists; (split; [reflexivity|]); done.
  - reflexivity.
  - intros createdAt def V Hv Hc Hdef Hnone.
    cbn [resolveCustomField]. unfold bind at 1. unfold setHas at 1.
    rewrite Hv. cbn [default]. rewrite bool_decide_eq_false_2 by done.
    rewrite Hdef, Hnone. unfold bind at 1. unfold newSet at 1.
    rewrite Hv. cbn [default]. unfold bind at 1. unfold setAdd at 1.
    replace (alter (fun contents => {[createdAt]} ∪ contents) (length h) (h ++ [V]))
      with (h ++ [{[createdAt]} ∪ V])
      by (rewrite <- (Nat.add_0_r (length h)) at 1; by rewrite alter_app_r).
    reflexivity.
Qed.

Lemma empty_inputs_convert_witness :
  resolveCustomField 1 "cf-e"
    (buildCustomFieldMap
       (Some [ {| createdAt := "cf-e"; defFieldId := "e"; defName := "E"; fields := [] |} ]))
    0 None [∅]
  = Done (Some (JObj [("type", JStr "object"); ("properties", JObj [])]),
          [∅] ++ [{["cf-e"]} ∪ ∅]).
Proof.
  destruct (empty_inputs_convert 0
              (buildCustomFieldMap
                 (Some [ {| createdAt := "cf-e"; defFieldId := "e"; defName := "E";
                            fields := [] |} ]))
              None 0 [∅]) as (_ & _ & Hdef).
  apply (Hdef "cf-e" {| createdAt := "cf-e"; defFieldId := "e"; defName := "E";
                        fields := [] |} ∅);
    [reflexivity | apply not_elem_of_empty | reflexivity | reflexivity].
Defined.

(** ** Sibling fields *)

(** X14: sibling fields of a definition do not see each other's
    resolutions. Two fields of one kind, so also two custom fields or two
    repeaters that refer to the same definitions, get the same schema
    wherever they stand in the list: the one converted later is expanded
    in full, as the first was. The schemas are found in [properties] under
    the identifiers of the two fields, when these are not [__proto__],
    under which an assignment creates no key, and no later field bears
    them. (Without the extension option; with it the schemas differ in the
    provenance properties.) *)
Theorem siblings_of_one_kind_share_a_schema fuel pool options createdAt def
    visited (h : Store) (V : gset string) i j fi fj :
  h !! visited = Some V -> createdAt ∉ V -> pool !! createdAt = Some def ->
  unvisited pool V <= S fuel ->
  truthyBool (options ≫= includeExtensions) = false ->
  fields def !! i = Some fi -> fields def !! j = Some fj -> kind fi = kind fj ->
  fieldId fi <> "__proto__" -> fieldId fj <> "__proto__" ->
  (forall n f', i < n -> fields def !! n = Some f' -> fieldId f' <> fieldId fi) ->
  (forall n f', j < n -> fields def !! n = Some f' -> fieldId f' <> fieldId fj) ->
  exists (shared : JSON) (properties out : Obj) (h' : Store),
    resolveCustomField (S fuel) createdAt pool visited options h
    = Done (Some (JObj out), h') /\
    getProp "properties" out = Some (JObj properties) /\
    getProp (fieldId fi) properties = Some shared /\
    getProp (fieldId fj) properties = Some shared.
Proof.
  intros Hv Hc Hdef Hfuel Hext Hi Hj Hkind Hprotoi Hprotoj Hlasti Hlastj.
  destruct (resolve_enough_enter pool options (S fuel) createdAt def h visited V
              Hv Hc Hdef Hfuel) as (fuel' & ss & ext & [= <-] & Hss & E & _).
  pose proof (Forall2_length _ _ _ Hss) as Hlen.
  destruct (zip_fields_schemas _ _ Hss) as [Hfst Hzip].
  destruct (Forall2_lookup_l _ _ _ _ _ Hss Hi) as (si & Hsi & Hyi).
  destruct (Forall2_lookup_l _ _ _ _ _ Hss Hj) as (sj & Hsj & Hyj).
  assert (si = sj) as <-.
  { apply (yields_functional pool ({[createdAt]} ∪ V)
             (fun v => convertField (resolveCustomField fuel) fj pool v options));
      [|exact Hyj].
    intros h0 v Hv0. destruct (Hyi h0 v Hv0) as (e0 & E0 & F0).
    exists e0. split; [|exact F0]. rewrite <- E0.
    unfold convertField, convertFieldByKind. by rewrite Hext, Hkind. }
  unfold objectSchema in E.
  rewrite assignField_required, assignField_properties, Hfst, Hzip in E.
  cbn [fst snd app] in E.
  assert (forall n f,
            fields def !! n = Some f -> ss !! n = Some si ->
            fieldId f <> "__proto__" ->
            (forall m f', n < m -> fields def !! m = Some f' -> fieldId f' <> fieldId f) ->
            getProp (fieldId f) (assignAll [] (zip (fieldId <$> fields def) ss)) = Some si)
    as Hget.
  { intros n f Hf Hs Hproto Hlast. apply (getProp_assignAll_lookup _ _ _ n).
    - done.
    - by rewrite length_fmap.
    - by rewrite list_lookup_fmap, Hf.
    - exact Hs.
    - intros m k' Hnm Hk'. rewrite list_lookup_fmap in Hk'.
      destruct (fields def !! m) as [f'|] eqn:Hf'; [|done].
      injection Hk' as <-. by eapply Hlast. }
  eexists si, _, _, _.
  split_and!; [exact E | by rewrite getProp_withRequired_other | |].
  - by apply (Hget i).
  - by apply (Hget j).
Qed.

Lemma siblings_of_one_kind_share_a_schema_witness :
  exists (shared : JSON) (properties out : Obj) (h' : Store),
    resolveCustomField 2 "cf-pair" (buildCustomFieldMap (Some [cfPair; cfA])) 0 None [∅]
    = Done (Some (JObj out), h') /\
    getProp "properties" out = Some (JObj properties) /\
    getProp "left" properties = Some shared /\
    getProp "right" properties = Some shared.
Proof.
  apply (siblings_of_one_kind_share_a_schema 1 (buildCustomFieldMap (Some [cfPair; cfA]))
           None "cf-pair" cfPair 0 [∅] ∅ 0 1
           (sampleField "left" None (custom "cf-a"))
           (sampleField "right" (Some true) (custom "cf-a"))).
  - reflexivity.
  - apply not_elem_of_empty.
  - reflexivity.
  - vm_compute. lia.
  - reflexivity.
  - reflexivity.
  - reflexivity.
  - reflexivity.
  - discriminate.
  - discriminate.
  - intros [|[|n]] f' Hn Hf'; [lia | | discriminate].
    injection Hf' as <-. discriminate.
  - intros [|[|n]] f' Hn Hf'; [lia | lia | discriminate].
Defined.
